(** * Verification of the [up] command-line client's core utilities

    The development embeds three pieces of the repository:

    - [Json]: the streaming JSON array encoder [MCPGVKEventEncoder]
      (package [json]); [JsonText] is a reader of JSON text, used to state
      what the produced bytes mean;
    - [Usage]: the usage query builder [UsageQuery] and the windowed
      [UsageQueryIterator] (packages [gcs] / [clientutil]), over the part of
      package [time] they need, [GoTime];
    - [Robot]: the [Run] method of the robot delete command.

    The definitions come first; the properties follow, the supporting
    lemmas in the modules named [...Facts] and the main results in the
    modules named [...Spec].

    Go values are modelled as follows: [[]byte] is [list byte], [string] is
    [string], an [error] is the message it carries, a [time.Time] in UTC is
    the number of nanoseconds since the Unix epoch as a [Z], and a
    [time.Duration] is a number of nanoseconds as a [Z]. *)

From Stdlib Require Import String Ascii.
From Stdlib Require Import ZArith List Bool Lia.
From Stdlib Require Import Strings.Byte.
Import ListNotations.

Local Open Scope Z_scope.

(** Go's [error] interface, observed through its message. *)
Definition error := string.

(** A Go result pair [(T, error)] with exactly one side set. *)
Inductive result (A : Type) : Type :=
| Ok (a : A)
| Err (e : error).
Arguments Ok {A} a.
Arguments Err {A} e.

(* ================================================================= *)
(** ** Package json: the streaming array encoder *)

Module Json.

Definition bytes := list byte.

(** Bytes the encoder names: ['['], [','], ['\n'], [']']. *)
Definition b_lbracket : byte := x5b.
Definition b_rbracket : byte := x5d.
Definition b_comma : byte := x2c.
Definition b_newline : byte := x0a.

(** One call of [io.Writer.Write]: the slice handed over, the count [n]
    and the error the sink answered. *)
Record WriteCall := {
  wc_p : bytes;
  wc_n : nat;
  wc_err : option error
}.

(** What a call put on the sink: the whole slice when it reported no error
    (the [io.Writer] contract), the first [n] bytes otherwise. *)
Definition accepted (c : WriteCall) : bytes :=
  match wc_err c with
  | None => wc_p c
  | Some _ => firstn (wc_n c) (wc_p c)
  end.

Section Encoder.

(** The sink: any [io.Writer], as a state machine. *)
Variable W : Type.
Variable Write : W -> bytes -> W * (nat * option error).

(** [model.MCPGVKEvent] and [json.Marshal] on it. *)
Variable Event : Type.
Variable Marshal : Event -> result bytes.

(** The sink the encoder points to, and the history of calls made on it. *)
Record world := {
  sink : W;
  trace : list WriteCall
}.

(** The byte stream on the sink. *)
Definition written (ws : world) : bytes :=
  concat (map accepted (trace ws)).

(** [w.Write(p)], with the count dropped as the encoder drops it. *)
Definition do_Write (ws : world) (p : bytes) : world * option error :=
  let '(s', (n, err)) := Write (sink ws) p in
  ({| sink := s';
      trace := trace ws ++ [{| wc_p := p; wc_n := n; wc_err := err |}] |},
   err).

(** The struct [MCPGVKEventEncoder]; its field [w] is the [sink] of the
    world, shared with whoever else holds the writer. *)
Record MCPGVKEventEncoder := {
  wroteFirstItem : bool
}.

Definition NewMCPGVKEventEncoder (ws : world)
  : world * result MCPGVKEventEncoder :=
  match do_Write ws [b_lbracket] with
  | (ws', Some err) => (ws', Err err)
  | (ws', None) => (ws', Ok {| wroteFirstItem := false |})
  end.

Definition Encode (ws : world) (e : MCPGVKEventEncoder) (event : Event)
  : world * MCPGVKEventEncoder * option error :=
  let b : bytes := [] in
  let b := if wroteFirstItem e then b ++ [b_comma] else b in
  let b := b ++ [b_newline] in
  match Marshal event with
  | Err err => (ws, e, Some err)
  | Ok eventBytes =>
      let b := b ++ eventBytes in
      let '(ws', err) := do_Write ws b in
      match err with
      | None => (ws', {| wroteFirstItem := true |}, err)
      | Some _ => (ws', e, err)
      end
  end.

Definition Close (ws : world) (e : MCPGVKEventEncoder)
  : world * option error :=
  do_Write ws [b_newline; b_rbracket; b_newline].

(** The caller's loop over the events: stop at the first error. *)
Fixpoint encode_each (ws : world) (e : MCPGVKEventEncoder)
  (events : list Event) : world * MCPGVKEventEncoder * option error :=
  match events with
  | [] => (ws, e, None)
  | event :: rest =>
      match Encode ws e event with
      | (ws', e', None) => encode_each ws' e' rest
      | (ws', e', Some err) => (ws', e', Some err)
      end
  end.

(** The documented use of the encoder: construct it, encode the events,
    and call [Close] on the way out (a deferred call, so it also runs when
    an [Encode] failed; the first error is the one reported). *)
Definition write_array (ws : world) (events : list Event)
  : world * option error :=
  match NewMCPGVKEventEncoder ws with
  | (ws1, Err err) => (ws1, Some err)
  | (ws1, Ok e) =>
      match encode_each ws1 e events with
      | (ws2, e2, None) => Close ws2 e2
      | (ws2, e2, Some err) => (fst (Close ws2 e2), Some err)
      end
  end.

End Encoder.

Arguments sink {W} _.
Arguments trace {W} _.
Arguments written {W} _.
Arguments Build_world {W} _ _.
Arguments do_Write {W} Write ws p.
Arguments NewMCPGVKEventEncoder {W} Write ws.
Arguments Encode {W} Write {Event} Marshal ws e event.
Arguments Close {W} Write ws e.
Arguments encode_each {W} Write {Event} Marshal ws e events.
Arguments write_array {W} Write {Event} Marshal ws events.

(** What [Encode] puts before the record: a comma when an item precedes,
    and the newline. *)
Definition separator (e : MCPGVKEventEncoder) : bytes :=
  if wroteFirstItem e then [b_comma; b_newline] else [b_newline].

(** A sink that accepts every write. *)
Definition accepts_all {W : Type}
  (Write : W -> bytes -> W * (nat * option error)) : Prop :=
  forall s p, snd (snd (Write s p)) = None.

(** The closing sequence of [Close]. *)
Definition closing : bytes := [b_newline; b_rbracket; b_newline].

(** The two records of the round-trip scenario, an object with member [a]
    set to 1 and an object with member [b] set to 2, as JSON text. *)
Definition record_a1 : bytes := [x7b; x22; x61; x22; x3a; x31; x7d].
Definition record_b2 : bytes := [x7b; x22; x62; x22; x3a; x32; x7d].

(** The items of the array as [Encode] lays them out, [wrote] telling
    whether an item precedes. *)
Fixpoint items (wrote : bool) (bs : list bytes) : bytes :=
  match bs with
  | [] => []
  | b :: rest =>
      (if wrote then [b_comma; b_newline] else [b_newline]) ++ b
      ++ items true rest
  end.

(** The whole stream for the marshalled records [bs]. *)
Definition array_text (bs : list bytes) : bytes :=
  [b_lbracket] ++ items false bs ++ closing.

(** The stream for two records as the interface description words it: a
    newline after each record, the comma between two newlines. *)
Definition described_stream (b1 b2 : bytes) : bytes :=
  [b_lbracket; b_newline] ++ b1 ++ [b_newline; b_comma; b_newline] ++ b2
  ++ [b_newline; b_rbracket; b_newline].

(** *** Sinks and events to run the encoder on *)

(** A [bytes.Buffer]: every write is taken whole and never fails. *)
Definition Buffer := bytes.
Definition Buffer_Write (buf : Buffer) (p : bytes)
  : Buffer * (nat * option error) :=
  (buf ++ p, (length p, None)).

(** A buffer with room for [cap] more bytes: a write that does not fit is
    cut short and answered with [io.ErrShortWrite]. *)
Definition Limited := (bytes * nat)%type.
Definition Limited_Write (l : Limited) (p : bytes)
  : Limited * (nat * option error) :=
  let '(buf, cap) := l in
  if (length p <=? cap)%nat
  then ((buf ++ p, (cap - length p)%nat), (length p, None))
  else ((buf ++ firstn cap p, 0%nat), (cap, Some "short write"%string)).

(** Events that are either text already marshalled or a value
    [json.Marshal] refuses. *)
Definition Marshal_opt (event : option bytes) : result bytes :=
  match event with
  | Some b => Ok b
  | None => Err "json: unsupported value"%string
  end.

(** A sink nothing was written to yet. *)
Definition fresh {W : Type} (s : W) : world W := {| sink := s; trace := [] |}.

Definition fresh_buffer : world Buffer := fresh [].

End Json.

(* ================================================================= *)
(** ** Reading JSON text

    What [encoding/json] accepts as one JSON document (RFC 8259), used to
    say what the encoder's output means. The reader works in two passes,
    bytes to tokens and tokens to a value. Numbers and strings keep their
    text as it stands in the input. *)

Module JsonText.

Import Json.

Inductive token : Type :=
| TLBrace | TRBrace | TLBracket | TRBracket | TColon | TComma
| TNull | TTrue | TFalse
| TNum (lexeme : bytes)
| TStr (raw : bytes).

#[warnings="-register-all"]
Inductive json : Type :=
| JNull
| JBool (b : bool)
| JNum (lexeme : bytes)
| JStr (raw : bytes)
| JArr (elems : list json)
| JObj (members : list (bytes * json)).

(** Where the scanner stands inside a number: after the minus sign, after
    a leading zero, inside the integer digits, after the point, inside the
    fraction digits, after the exponent mark, after the exponent sign, inside
    the exponent digits. *)
Inductive numst : Type :=
| NMinus | NZero | NInt | NDot | NFrac | NE | NESign | NExp.

Definition num_final (ns : numst) : bool :=
  match ns with
  | NZero | NInt | NFrac | NExp => true
  | NMinus | NDot | NE | NESign => false
  end.

(** Scanner modes; accumulators are kept reversed. *)
Inductive lmode : Type :=
| LBoundary
| LLit (rest : bytes) (tok : token)
| LStr (acc : bytes)
| LStrEsc (acc : bytes)
| LStrU (acc : bytes) (k : nat)
| LNum (ns : numst) (acc : bytes).

Definition code (c : byte) : N := Byte.to_N c.

Definition is_ws (c : byte) : bool :=
  let n := code c in
  ((n =? 32) || (n =? 9) || (n =? 10) || (n =? 13))%N.

Definition is_digit (c : byte) : bool :=
  let n := code c in ((48 <=? n) && (n <=? 57))%N.

Definition is_digit19 (c : byte) : bool :=
  let n := code c in ((49 <=? n) && (n <=? 57))%N.

Definition is_hex (c : byte) : bool :=
  let n := code c in
  (((48 <=? n) && (n <=? 57)) || ((65 <=? n) && (n <=? 70))
   || ((97 <=? n) && (n <=? 102)))%N.

(** The letters the literals [true], [false] and [null] are spelled with. *)
Definition is_lower (c : byte) : bool :=
  let n := code c in ((97 <=? n) && (n <=? 122))%N.

(** The characters allowed after a backslash, ['u'] apart. *)
Definition is_escape (c : byte) : bool :=
  let n := code c in
  ((n =? 34) || (n =? 92) || (n =? 47) || (n =? 98) || (n =? 102)
   || (n =? 110) || (n =? 114) || (n =? 116))%N.

Definition is_code (n : N) (c : byte) : bool := (code c =? n)%N.

(** A step that starts between two tokens. *)
Definition step_boundary (c : byte) : option (lmode * list token) :=
  if is_ws c then Some (LBoundary, [])
  else if is_code 123 c then Some (LBoundary, [TLBrace])
  else if is_code 125 c then Some (LBoundary, [TRBrace])
  else if is_code 91 c then Some (LBoundary, [TLBracket])
  else if is_code 93 c then Some (LBoundary, [TRBracket])
  else if is_code 58 c then Some (LBoundary, [TColon])
  else if is_code 44 c then Some (LBoundary, [TComma])
  else if is_code 34 c then Some (LStr [], [])
  else if is_code 45 c then Some (LNum NMinus [c], [])
  else if is_code 48 c then Some (LNum NZero [c], [])
  else if is_digit19 c then Some (LNum NInt [c], [])
  else if is_code 116 c then Some (LLit [x72; x75; x65] TTrue, [])
  else if is_code 102 c then Some (LLit [x61; x6c; x73; x65] TFalse, [])
  else if is_code 110 c then Some (LLit [x75; x6c; x6c] TNull, [])
  else None.

(** How a number goes on with [c], if it does. *)
Definition num_next (ns : numst) (c : byte) : option numst :=
  match ns with
  | NMinus => if is_code 48 c then Some NZero
              else if is_digit19 c then Some NInt else None
  | NZero => if is_code 46 c then Some NDot
             else if is_code 101 c || is_code 69 c then Some NE else None
  | NInt => if is_digit c then Some NInt
            else if is_code 46 c then Some NDot
            else if is_code 101 c || is_code 69 c then Some NE else None
  | NDot => if is_digit c then Some NFrac else None
  | NFrac => if is_digit c then Some NFrac
             else if is_code 101 c || is_code 69 c then Some NE else None
  | NE => if is_code 43 c || is_code 45 c then Some NESign
          else if is_digit c then Some NExp else None
  | NESign => if is_digit c then Some NExp else None
  | NExp => if is_digit c then Some NExp else None
  end.

Definition step (m : lmode) (c : byte) : option (lmode * list token) :=
  match m with
  | LBoundary => step_boundary c
  | LLit [] _ => None
  | LLit (x :: rest) tok =>
      if is_lower c && Byte.eqb c x then
        match rest with
        | [] => Some (LBoundary, [tok])
        | _ => Some (LLit rest tok, [])
        end
      else None
  | LStr acc =>
      if is_code 34 c then Some (LBoundary, [TStr (rev acc)])
      else if is_code 92 c then Some (LStrEsc (c :: acc), [])
      else if (code c <? 32)%N then None
      else Some (LStr (c :: acc), [])
  | LStrEsc acc =>
      if is_escape c then Some (LStr (c :: acc), [])
      else if is_code 117 c then Some (LStrU (c :: acc) 4, [])
      else None
  | LStrU acc k =>
      if is_hex c then
        match k with
        | 0%nat | 1%nat => Some (LStr (c :: acc), [])
        | S k' => Some (LStrU (c :: acc) k', [])
        end
      else None
  | LNum ns acc =>
      match num_next ns c with
      | Some ns' => Some (LNum ns' (c :: acc), [])
      | None =>
          if num_final ns then
            match step_boundary c with
            | Some (m', out) => Some (m', TNum (rev acc) :: out)
            | None => None
            end
          else None
      end
  end.

Fixpoint run (m : lmode) (s : bytes) : option (lmode * list token) :=
  match s with
  | [] => Some (m, [])
  | c :: s' =>
      match step m c with
      | None => None
      | Some (m', out) =>
          match run m' s' with
          | None => None
          | Some (mf, outs) => Some (mf, out ++ outs)
          end
      end
  end.

(** At the end of the input only a finished number may still be open. *)
Definition finish (m : lmode) : option (list token) :=
  match m with
  | LBoundary => Some []
  | LNum ns acc => if num_final ns then Some [TNum (rev acc)] else None
  | _ => None
  end.

Definition lex (s : bytes) : option (list token) :=
  match run LBoundary s with
  | None => None
  | Some (m, out) =>
      match finish m with
      | None => None
      | Some o => Some (out ++ o)
      end
  end.

(** Tokens to values, by recursive descent; [n] bounds the depth of the
    calls. [parse_elems] reads [value (, value)* \]] and [parse_members]
    reads [string : value (, string : value)* \}]. *)
Fixpoint parse_value (n : nat) (ts : list token)
  : option (json * list token) :=
  match n with
  | O => None
  | S n' =>
      match ts with
      | TNull :: r => Some (JNull, r)
      | TTrue :: r => Some (JBool true, r)
      | TFalse :: r => Some (JBool false, r)
      | TNum l :: r => Some (JNum l, r)
      | TStr l :: r => Some (JStr l, r)
      | TLBracket :: TRBracket :: r => Some (JArr [], r)
      | TLBracket :: r =>
          match parse_elems n' r with
          | Some (vs, r') => Some (JArr vs, r')
          | None => None
          end
      | TLBrace :: TRBrace :: r => Some (JObj [], r)
      | TLBrace :: r =>
          match parse_members n' r with
          | Some (ms, r') => Some (JObj ms, r')
          | None => None
          end
      | _ => None
      end
  end
with parse_elems (n : nat) (ts : list token)
  : option (list json * list token) :=
  match n with
  | O => None
  | S n' =>
      match parse_value n' ts with
      | Some (v, TComma :: r) =>
          match parse_elems n' r with
          | Some (vs, r') => Some (v :: vs, r')
          | None => None
          end
      | Some (v, TRBracket :: r) => Some ([v], r)
      | _ => None
      end
  end
with parse_members (n : nat) (ts : list token)
  : option (list (bytes * json) * list token) :=
  match n with
  | O => None
  | S n' =>
      match ts with
      | TStr k :: TColon :: r =>
          match parse_value n' r with
          | Some (v, TComma :: r') =>
              match parse_members n' r' with
              | Some (ms, r'') => Some ((k, v) :: ms, r'')
              | None => None
              end
          | Some (v, TRBrace :: r') => Some ([(k, v)], r')
          | _ => None
          end
      | _ => None
      end
  end.

(** Enough depth for any token list: every second call eats a token. *)
Definition depth_for (ts : list token) : nat := 2 * length ts + 2.

(** A document is one value and nothing after it. *)
Definition parse_doc (ts : list token) : option json :=
  match parse_value (depth_for ts) ts with
  | Some (v, []) => Some v
  | _ => None
  end.

Definition json_parse (s : bytes) : option json :=
  match lex s with
  | None => None
  | Some ts => parse_doc ts
  end.

(** The text is a well-formed JSON array. *)
Definition is_json_array (s : bytes) : Prop :=
  exists elems, json_parse s = Some (JArr elems).

End JsonText.

(* ================================================================= *)
(** ** Package time, as far as the usage queries use it *)

Module GoTime.

(** [time.Time] in UTC: nanoseconds since 1970-01-01T00:00:00Z. *)
Definition Time := Z.

(** [time.Duration]: a count of nanoseconds. *)
Definition Duration := Z.

Definition Nanosecond : Duration := 1.
Definition Second : Duration := 1000000000 * Nanosecond.
Definition Minute : Duration := 60 * Second.
Definition Hour : Duration := 60 * Minute.

(** Seconds from the zero [Time] (January 1, year 1) to the Unix epoch. *)
Definition unixToInternal : Z := 62135596800.

(** [t.Truncate(d)]: round [t] down to a multiple of [d] since the zero
    time; [t] itself when [d <= 0]. *)
Definition Time_Truncate (t : Time) (d : Duration) : Time :=
  if d <=? 0 then t else t - (t + unixToInternal * Second) mod d.

(** The zero [time.Time]. *)
Definition zeroTime : Time := - unixToInternal * Second.

(** [d.Truncate(m)]: round [d] toward zero to a multiple of [m]. *)
Definition Duration_Truncate (d m : Duration) : Duration :=
  if m <=? 0 then d else d - Z.rem d m.

Definition Time_Add (t : Time) (d : Duration) : Time := t + d.
Definition Time_Before (t u : Time) : bool := t <? u.

(** *** Calendar fields in UTC *)

(** Days since 1970-01-01 of the day [t] falls in. *)
Definition unix_day (t : Time) : Z := t / (24 * Hour).

(** [t.Hour()]. *)
Definition Time_Hour (t : Time) : Z := (t / Hour) mod 24.

(** Eras of 400 years start on March 1 of a year divisible by 400, and
    the years within an era run from March to February. [year_of_era] is
    the year a day of the era falls in, [year_start] the day of the era such
    a year starts on, [month_day] the month and the day of the month of a day
    counted from March 1. *)
Definition year_of_era (doe : Z) : Z :=
  (doe - doe / 1460 + doe / 36524 - doe / 146096) / 365.

Definition year_start (yoe : Z) : Z := 365 * yoe + yoe / 4 - yoe / 100.

Definition month_day (doy : Z) : Z * Z :=
  let mp := (5 * doy + 2) / 153 in
  let d := doy - (153 * mp + 2) / 5 + 1 in
  let m := if mp <? 10 then mp + 3 else mp - 9 in
  (m, d).

(** Calendar year, month and day of day [doe] of an era, the year counted
    from the start of the era. *)
Definition civil_in_era (doe : Z) : Z * Z * Z :=
  let yoe := year_of_era doe in
  let doy := doe - year_start yoe in
  let '(m, d) := month_day doy in
  (yoe + (if m <=? 2 then 1 else 0), m, d).

(** Year, month and day of a day number counted from 1970-01-01. *)
Definition civil_from_days (z : Z) : Z * Z * Z :=
  let z := z + 719468 in
  let era := z / 146097 in
  let doe := z mod 146097 in
  let '(y, m, d) := civil_in_era doe in
  (y + era * 400, m, d).

(** [t.Date()]. *)
Definition Time_Date (t : Time) : Z * Z * Z := civil_from_days (unix_day t).

(** *** The Gregorian calendar, counted forward

    The reference the fields above are checked against. *)

Definition is_leap (y : Z) : bool :=
  (y mod 4 =? 0) && (negb (y mod 100 =? 0) || (y mod 400 =? 0)).

(** Days of month [m] in a leap or a common year. *)
Definition days_in_month_of (leap : bool) (m : Z) : Z :=
  if (m =? 2) then (if leap then 29 else 28)
  else if (m =? 4) || (m =? 6) || (m =? 9) || (m =? 11) then 30
  else if (1 <=? m) && (m <=? 12) then 31
  else 0.

Definition days_in_month (y m : Z) : Z := days_in_month_of (is_leap y) m.

(** Leap years among the years up to [y - 1]. *)
Definition leaps_before (y : Z) : Z :=
  (y - 1) / 4 - (y - 1) / 100 + (y - 1) / 400.

(** Days from 1970-01-01 to January 1 of year [y]. *)
Definition days_before_year (y : Z) : Z :=
  365 * (y - 1970) + (leaps_before y - leaps_before 1970).

(** Days of a leap or a common year that lie before its month [m]. *)
Definition days_before_month_of (leap : bool) (m : Z) : Z :=
  fold_right Z.add 0
    (map (days_in_month_of leap)
       (filter (fun k => k <? m) [1; 2; 3; 4; 5; 6; 7; 8; 9; 10; 11; 12])).

Definition days_before_month (y m : Z) : Z :=
  days_before_month_of (is_leap y) m.

Definition date_to_unix_day (y m d : Z) : Z :=
  days_before_year y + days_before_month y m + (d - 1).

(** [time.Date(y, m, d, hour, min, sec, nsec, time.UTC)] for fields that
    are in range. *)
Definition Date (y m d hour min sec nsec : Z) : Time :=
  (((date_to_unix_day y m d * 24 + hour) * 60 + min) * 60 + sec) * Second
  + nsec.

Definition valid_date (y m d : Z) : Prop :=
  1 <= m <= 12 /\ 1 <= d <= days_in_month y m.

(** *** Exhaustive checks

    Facts about one era, or about the numbers below ten thousand, are
    settled by running through all cases. *)

(** [P] holds for the [n] integers from [z] on. *)
Fixpoint forall_from (n : nat) (z : Z) (P : Z -> bool) : bool :=
  match n with
  | O => true
  | S k => P z && forall_from k (z + 1) P
  end.

(** [P] holds for the integers from 0 up to, not including, [n]. *)
Definition forall_below (n : Z) (P : Z -> bool) : bool :=
  forall_from (Z.to_nat n) 0 P.

(** The last day of year [yoe] of an era. *)
Definition year_end (yoe : Z) : Z :=
  if yoe =? 399 then 146096 else year_start (yoe + 1) - 1.

(** Year [yoe] of the era that starts on 0000-03-01: its first and its last
    day fall in it, it has 365 days and one more when the calendar year that
    holds its February is a leap year, and its first day is March 1 of
    calendar year [yoe], 306 days before January 1 of the next. *)
Definition year_ok (yoe : Z) : bool :=
  (year_of_era (year_start yoe) =? yoe)
  && (year_of_era (year_end yoe) =? yoe)
  && (year_end yoe - year_start yoe =? 364 + Z.b2z (is_leap (yoe + 1)))
  && (days_before_year yoe + 59 + Z.b2z (is_leap yoe)
      =? year_start yoe - 719468)
  && (days_before_year (yoe + 1) - 306 =? year_start yoe - 719468).

(** Day [doy] counted from March 1: month and day are in range, day 365 is
    February 29, and the days before the date within its calendar year are
    [doy - 306] in January and February and [doy] plus the days of January
    and February from March on. *)
Definition day_of_year_ok (doy : Z) : bool :=
  let '(m, d) := month_day doy in
  (1 <=? m) && (m <=? 12) && (1 <=? d)
  && (if m =? 2 then (d <=? 29) && ((365 <=? doy) || (d <=? 28))
      else (doy <=? 364) && (d <=? days_in_month_of false m)
           && (d <=? days_in_month_of true m))
  && (if m <=? 2 then
        (days_before_month_of false m + (d - 1) =? doy - 306)
        && (days_before_month_of true m + (d - 1) =? doy - 306)
      else
        (days_before_month_of false m + (d - 1) =? doy + 59)
        && (days_before_month_of true m + (d - 1) =? doy + 60)).

(** *** Decimal output *)

Definition digit (n : Z) : ascii := ascii_of_N (48 + Z.to_N n).

(** The decimal digits of [n >= 0], most significant first. *)
Fixpoint digits (fuel : nat) (n : Z) (acc : string) : string :=
  match fuel with
  | O => acc
  | S f =>
      let acc' := String (digit (n mod 10)) acc in
      if n <? 10 then acc' else digits f (n / 10) acc'
  end.

Definition itoa (n : Z) : string :=
  digits (S (Z.to_nat (Z.log2 n))) n EmptyString.

Fixpoint zeros (k : nat) : string :=
  match k with
  | O => EmptyString
  | S k' => String "0" (zeros k')
  end.

(** The formatter's [appendInt(b, x, width)]: sign, zero padding up to
    [width], digits. *)
Definition appendInt (x : Z) (width : nat) : string :=
  let s := itoa (Z.abs x) in
  let sign := if x <? 0 then "-"%string else EmptyString in
  (sign ++ zeros (width - String.length s) ++ s)%string.

(** [t.Format("2006-01-02")]. *)
Definition formatDate (t : Time) : string :=
  let '(y, m, d) := Time_Date t in
  (appendInt y 4 ++ "-" ++ appendInt m 2 ++ "-" ++ appendInt d 2)%string.

(** Exactly two and exactly four decimal digits. *)
Definition dec2 (n : Z) : string :=
  String (digit (n / 10)) (String (digit (n mod 10)) EmptyString).

Definition dec4 (n : Z) : string :=
  String (digit (n / 1000)) (String (digit (n / 100 mod 10)) (dec2 (n mod 100))).

(** The formatter writes [x] as exactly two, and as exactly four, digits. *)
Definition two_digits_ok (x : Z) : bool := String.eqb (appendInt x 2) (dec2 x).
Definition four_digits_ok (x : Z) : bool := String.eqb (appendInt x 4) (dec4 x).

End GoTime.

(* ================================================================= *)
(** ** Usage queries: the single-shot builder and the window iterator *)

Module Usage.

Import GoTime.

Local Open Scope string_scope.

(** The fields of [storage.Query] the builder sets. *)
Record Query := {
  StartOffset : string;
  EndOffset : string
}.

Record UsageQueryIterator := {
  Account : string;
  Cursor : Time;
  EndTime : Time;
  Window : Duration
}.

Definition errInvalidWindow : error := "window must be 1h or greater".
Definition errInvalidRange : error := "endTime must occur after startTime".
(** The terminal error of an exhausted iterator; the spec names its kind. *)
Definition errExhausted : error := "Exhausted".

(** Modelled from the spec: the path-offset rendering shared by the builder
    and the iterator, whose source file is not among the sources. It renders
    [account=<account>/date=<YYYY-MM-DD>/hour=<HH>/] from the UTC calendar
    fields of [t]. *)
Definition pathOffset (account : string) (t : Time) : string :=
  "account=" ++ account ++ "/date=" ++ formatDate t
  ++ "/hour=" ++ appendInt (Time_Hour t) 2 ++ "/".

(** Modelled from the spec: [UsageQuery], the standalone single-shot query
    builder and range-validation helper, whose source file is not among the
    sources. Both instants are truncated to the hour, an end that precedes
    the start is refused, and the two path offsets are rendered. *)
Definition UsageQuery (account : string) (startTime endTime : Time)
  : result Query :=
  let startTime := Time_Truncate startTime Hour in
  let endTime := Time_Truncate endTime Hour in
  if Time_Before endTime startTime then Err errInvalidRange
  else Ok {| StartOffset := pathOffset account startTime;
             EndOffset := pathOffset account endTime |}.

(** Modelled from the spec: [NewUsageQueryIterator], whose source file is
    not among the sources. The window is checked against the one-hour
    minimum first; start, end and window are truncated to whole hours; the
    range goes through the validation of [UsageQuery]. *)
Definition NewUsageQueryIterator (account : string) (startTime endTime : Time)
  (window : Duration) : result UsageQueryIterator :=
  if (window <? Hour)%Z then Err errInvalidWindow
  else
    let startTime := Time_Truncate startTime Hour in
    let endTime := Time_Truncate endTime Hour in
    let window := Duration_Truncate window Hour in
    match UsageQuery account startTime endTime with
    | Err e => Err e
    | Ok _ =>
        Ok {| Account := account;
              Cursor := startTime;
              EndTime := endTime;
              Window := window |}
    end.

(** Modelled from the spec: [More], true while the cursor is before the end
    of the range. *)
Definition More (i : UsageQueryIterator) : bool :=
  Time_Before (Cursor i) (EndTime i).

(** What one call of [Next] hands back: the query, the bounds of the
    sub-range and the error. *)
Record Step := {
  step_query : option Query;
  step_start : Time;
  step_end : Time;
  step_err : option error
}.

(** Modelled from the spec: [Next], whose source file is not among the
    sources. An exhausted iterator answers with the terminal error;
    otherwise the step ends at [min (cursor + window) endTime], the offsets
    of the step are built by [UsageQuery], and the cursor moves to the end of
    the step. *)
Definition Next (i : UsageQueryIterator) : UsageQueryIterator * Step :=
  if negb (More i) then
    (i, {| step_query := None; step_start := zeroTime; step_end := zeroTime;
           step_err := Some errExhausted |})
  else
    let start := Cursor i in
    let stepEnd := Z.min (Time_Add (Cursor i) (Window i)) (EndTime i) in
    match UsageQuery (Account i) start stepEnd with
    | Err e =>
        (i, {| step_query := None; step_start := start; step_end := stepEnd;
               step_err := Some e |})
    | Ok q =>
        ({| Account := Account i; Cursor := stepEnd;
            EndTime := EndTime i; Window := Window i |},
         {| step_query := Some q; step_start := start; step_end := stepEnd;
            step_err := None |})
    end.

(** The caller's loop [for iter.More() { ... iter.Next() ... }], cut after
    [fuel] rounds: the iterator it leaves and the steps it collected. *)
Fixpoint drain (fuel : nat) (i : UsageQueryIterator)
  : UsageQueryIterator * list Step :=
  match fuel with
  | O => (i, [])
  | S fuel' =>
      if More i then
        let '(i', st) := Next i in
        let '(i'', sts) := drain fuel' i' in
        (i'', st :: sts)
      else (i, [])
  end.

(** Rounds that always suffice: one per hour left in the range. *)
Definition rounds (i : UsageQueryIterator) : nat :=
  Z.to_nat ((EndTime i - Cursor i) / Hour).

(** The whole loop. *)
Definition iterate (i : UsageQueryIterator) : UsageQueryIterator * list Step :=
  drain (rounds i) i.

(** The sub-ranges of a run, as pairs of bounds. *)
Definition ranges (sts : list Step) : list (Time * Time) :=
  map (fun st => (step_start st, step_end st)) sts.

(** [chained a rs b]: the half-open intervals [rs] are non-empty, each
    starts where the one before ends, the first starts at [a] and the last
    ends at [b]; for no interval at all, [a = b]. *)
Fixpoint chained (a : Time) (rs : list (Time * Time)) (b : Time) : Prop :=
  match rs with
  | [] => a = b
  | (s, e) :: rs' => s = a /\ (s < e)%Z /\ chained e rs' b
  end.

(** [t] lies in one of the half-open intervals. *)
Definition covered (rs : list (Time * Time)) (t : Time) : Prop :=
  exists s e, In (s, e) rs /\ (s <= t < e)%Z.

(** No interval of the list reaches into a later one. *)
Definition non_overlapping (rs : list (Time * Time)) : Prop :=
  ForallOrdPairs (fun r1 r2 => (snd r1 <= fst r2)%Z) rs.

(** The starts, ends and offsets of a run. *)
Definition outline (r : result UsageQueryIterator)
  : list (Time * Time * option (string * string)) :=
  match r with
  | Err _ => []
  | Ok i =>
      map (fun st =>
             (step_start st, step_end st,
              match step_query st with
              | Some q => Some (StartOffset q, EndOffset q)
              | None => None
              end))
          (snd (iterate i))
  end.

(** An instant on a whole hour. *)
Definition on_the_hour (t : Time) : Prop := (t mod Hour = 0)%Z.

(** What construction establishes and every step keeps: cursor and end on
    whole hours, the cursor not past the end, a window of whole hours and
    at least one. *)
Record iterator_ok (i : UsageQueryIterator) : Prop := {
  ok_cursor : on_the_hour (Cursor i);
  ok_end : on_the_hour (EndTime i);
  ok_order : (Cursor i <= EndTime i)%Z;
  ok_window : (Hour <= Window i)%Z;
  ok_whole : (Window i mod Hour = 0)%Z
}.

(** A step that went well: no error, the end at the window or at the end of
    the range, whichever comes first, and the offsets of its two bounds. *)
Definition step_ok (i : UsageQueryIterator) (st : Step) : Prop :=
  step_err st = None
  /\ step_end st = Z.min (step_start st + Window i) (EndTime i)
  /\ step_query st =
     Some {| StartOffset := pathOffset (Account i) (step_start st);
             EndOffset := pathOffset (Account i) (step_end st) |}.

(** The layout the interface description gives for a path offset, read
    character by character: behind the account a year of four characters, a
    month of two, a day of two and an hour of two. *)
Definition described_layout (account s : string) : Prop :=
  exists y4 m2 d2 h2 : string,
    String.length y4 = 4%nat /\ String.length m2 = 2%nat
    /\ String.length d2 = 2%nat /\ String.length h2 = 2%nat
    /\ s = "account=" ++ account ++ "/date=" ++ y4 ++ "-" ++ m2 ++ "-" ++ d2
           ++ "/hour=" ++ h2 ++ "/".

End Usage.

(* ================================================================= *)
(** ** The robot delete command *)

Module Robot.

Local Open Scope string_scope.

(** [uuid.UUID], sixteen bytes, as the number they spell. *)
Definition UUID := N.

(** The fields of [organizations.Robot] that [Run] reads. *)
Record Robot := {
  ID : UUID;
  Name : string
}.

(** The fields of [upCtx.Account] that [Run] reads. *)
Record Account := {
  acc_ID : N;
  acc_Name : string
}.

Record deleteCmd := {
  cmd_Name : string;
  Force : bool
}.

(** [errors.Errorf(errMultipleRobotFmt, name, account)]. *)
Definition errMultipleRobot (name account : string) : error :=
  "found multiple robots with name " ++ name ++ " in " ++ account.

(** [errors.Errorf(errFindRobotFmt, name, account)]. *)
Definition errFindRobot (name account : string) : error :=
  "could not find robot " ++ name ++ " in " ++ account.

Section Run.

(** The remote API behind the two clients, as a state machine. *)
Variable API : Type.
Variable ListRobots : API -> N -> API * result (list Robot).
Variable Delete : API -> UUID -> API * option error.

(** The API, the delete requests sent so far and the lines printed. *)
Record env := {
  api : API;
  deletes : list UUID;
  printed : list string
}.

(** The [for _, r := range rs] loop, with [id] the pointer it keeps. *)
Fixpoint scan (c : deleteCmd) (account : Account) (rs : list Robot)
  (id : option UUID) : result (option UUID) :=
  match rs with
  | [] => Ok id
  | r :: rs' =>
      if String.eqb (Name r) (cmd_Name c) then
        if (match id with Some _ => true | None => false end)
           && negb (Force c)
        then Err (errMultipleRobot (cmd_Name c) (acc_Name account))
        else scan c account rs' (Some (ID r))
      else scan c account rs' id
  end.

Definition Run (c : deleteCmd) (account : Account) (w : env)
  : env * option error :=
  let '(a1, listed) := ListRobots (api w) (acc_ID account) in
  let w1 := {| api := a1; deletes := deletes w; printed := printed w |} in
  match listed with
  | Err err => (w1, Some err)
  | Ok rs =>
      if (length rs =? 0)%nat then
        (w1, Some (errFindRobot (cmd_Name c) (acc_Name account)))
      else
        match scan c account rs None with
        | Err err => (w1, Some err)
        | Ok None =>
            (w1, Some (errFindRobot (cmd_Name c) (acc_Name account)))
        | Ok (Some id) =>
            let '(a2, derr) := Delete a1 id in
            let w2 := {| api := a2; deletes := deletes w ++ [id];
                         printed := printed w |} in
            match derr with
            | Some err => (w2, Some err)
            | None =>
                ({| api := a2; deletes := deletes w ++ [id];
                    printed := printed w
                      ++ [acc_Name account ++ "/" ++ cmd_Name c
                          ++ " deleted"] |},
                 None)
            end
        end
  end.

End Run.

Arguments api {API} _.
Arguments deletes {API} _.
Arguments printed {API} _.

(** The robots of a listing that carry the requested name, in the order of
    the listing. *)
Definition matches (name : string) (rs : list Robot) : list Robot :=
  filter (fun r => String.eqb (Name r) name) rs.

(** An account's robots held in a list: listing returns them in order,
    deleting removes the robot with the given ID. *)
Definition Directory := list Robot.

Definition Directory_ListRobots (dir : Directory) (account : N)
  : Directory * result (list Robot) :=
  (dir, Ok dir).

Definition Directory_Delete (dir : Directory) (id : UUID)
  : Directory * option error :=
  (filter (fun r => negb (N.eqb (ID r) id)) dir, None).

(** Three robots, the first and the last of them named [ci]. *)
Definition three_robots : Directory :=
  [ {| ID := 1%N; Name := "ci" |};
    {| ID := 2%N; Name := "deploy" |};
    {| ID := 3%N; Name := "ci" |} ].

End Robot.

(* ================================================================= *)
(** ** Callers of the encoder *)

Module EncoderRuns.

Import Json JsonText.

Section Sink.

Variable W : Type.
Variable Write : W -> bytes -> W * (nat * option error).
Variable Event : Type.
Variable Marshal : Event -> result bytes.

(** A caller that goes on after an [Encode] that failed: every event is
    offered once, and the answers are kept in order. *)
Fixpoint encode_skipping (ws : world W) (e : MCPGVKEventEncoder)
  (events : list Event)
  : world W * MCPGVKEventEncoder * list (option error) :=
  match events with
  | [] => (ws, e, [])
  | event :: rest =>
      let '(ws1, e1, err) := Encode Write Marshal ws e event in
      let '(ws2, e2, errs) := encode_skipping ws1 e1 rest in
      (ws2, e2, err :: errs)
  end.

End Sink.

Arguments encode_skipping {W} Write {Event} Marshal ws e events.

(** The events whose [Encode] returned no error. *)
Fixpoint encoded {Event : Type} (events : list Event)
  (errs : list (option error)) : list Event :=
  match events, errs with
  | event :: events', None :: errs' => event :: encoded events' errs'
  | _ :: events', Some _ :: errs' => encoded events' errs'
  | _, _ => []
  end.

(** A sink that takes a slice whole or not at all: a write that fails has
    written nothing. *)
Definition all_or_nothing {W : Type}
  (Write : W -> bytes -> W * (nat * option error)) : Prop :=
  forall s p s' n err, Write s p = (s', (n, Some err)) -> n = 0%nat.

(** A buffer that follows a script: at [false] the write is refused and
    nothing is written, at [true], and when the script is over, the write is
    taken whole. *)
Definition Scripted := (bytes * list bool)%type.
Definition Scripted_Write (s : Scripted) (p : bytes)
  : Scripted * (nat * option error) :=
  let '(buf, script) := s in
  match script with
  | false :: script' => ((buf, script'), (0%nat, Some "write refused"%string))
  | true :: script' => ((buf ++ p, script'), (length p, None))
  | [] => ((buf ++ p, []), (length p, None))
  end.

(** The tokens of the items of an array, laid out as [items] lays out the
    bytes. *)
Fixpoint tokens_items (wrote : bool) (tbs : list (list token)) : list token :=
  match tbs with
  | [] => []
  | tb :: rest =>
      (if wrote then [TComma] else []) ++ tb ++ tokens_items true rest
  end.

(** Three JSON texts that are not objects: [1], [true] and [[]]. *)
Definition text_one : bytes := [x31].
Definition text_true : bytes := [x74; x72; x75; x65].
Definition text_empty_array : bytes := [x5b; x5d].

End EncoderRuns.

(* ================================================================= *)
(** ** The robot token delete command *)

Module Token.

Import Robot.

Local Open Scope string_scope.

(** The requests the command sends. *)
Inductive call : Type :=
| ListRobotsCall (account : N)
| ListTokensCall (robot : UUID)
| DeleteCall (token : UUID).

Record deleteCmd := {
  RobotName : string;
  TokenName : string;
  Force : bool
}.

Section Run.

(** The values of an attribute set, [interface{}] in the source, and
    [fmt.Sprint] on the result of a map lookup, [None] standing for the nil
    interface a missing key gives. *)
Variable Attr : Type.
Variable Sprint : option Attr -> string.

(** The fields of [tokens.Token] that [Run] reads. *)
Record Token := {
  tok_ID : UUID;
  AttributeSet : string -> option Attr
}.

(** [errors.Errorf] on the four format constants, which the package
    declares in a file that is not among the sources. *)
Variable errFindRobot : string -> string -> error.
Variable errMultipleRobot : string -> string -> error.
Variable errFindToken : string -> string -> string -> error.
Variable errMultipleToken : string -> string -> string -> error.

(** The remote API behind the three clients, as a state machine. *)
Variable API : Type.
Variable ListRobots : API -> N -> API * result (list Robot).
Variable ListTokens : API -> UUID -> API * result (list Token).
Variable Delete : API -> UUID -> API * option error.

(** The API, the requests sent so far and the lines printed. *)
Record env := {
  api : API;
  calls : list call;
  printed : list string
}.

(** The loop over the robots: a second robot with the name is an error,
    with or without [Force]. *)
Fixpoint scan_robots (c : deleteCmd) (account : Account) (rs : list Robot)
  (rid : option UUID) : result (option UUID) :=
  match rs with
  | [] => Ok rid
  | r :: rs' =>
      if String.eqb (Name r) (RobotName c) then
        match rid with
        | Some _ => Err (errMultipleRobot (RobotName c) (acc_Name account))
        | None => scan_robots c account rs' (Some (ID r))
        end
      else scan_robots c account rs' rid
  end.

(** The loop over the tokens of the robot. *)
Fixpoint scan_tokens (c : deleteCmd) (account : Account) (ts : list Token)
  (tid : option UUID) : result (option UUID) :=
  match ts with
  | [] => Ok tid
  | t :: ts' =>
      if String.eqb (Sprint (AttributeSet t "name")) (TokenName c) then
        if (match tid with Some _ => true | None => false end)
           && negb (Force c)
        then Err (errMultipleToken (TokenName c) (RobotName c)
                    (acc_Name account))
        else scan_tokens c account ts' (Some (tok_ID t))
      else scan_tokens c account ts' tid
  end.

Definition Run (c : deleteCmd) (account : Account) (w : env)
  : env * option error :=
  let '(a1, listed) := ListRobots (api w) (acc_ID account) in
  let w1 := {| api := a1;
               calls := calls w ++ [ListRobotsCall (acc_ID account)];
               printed := printed w |} in
  match listed with
  | Err err => (w1, Some err)
  | Ok rs =>
      if (length rs =? 0)%nat then
        (w1, Some (errFindRobot (RobotName c) (acc_Name account)))
      else
        match scan_robots c account rs None with
        | Err err => (w1, Some err)
        | Ok None =>
            (w1, Some (errFindRobot (RobotName c) (acc_Name account)))
        | Ok (Some rid) =>
            let '(a2, tokens) := ListTokens a1 rid in
            let w2 := {| api := a2;
                         calls := calls w1 ++ [ListTokensCall rid];
                         printed := printed w |} in
            match tokens with
            | Err err => (w2, Some err)
            | Ok ts =>
                if (length ts =? 0)%nat then
                  (w2, Some (errFindToken (TokenName c) (RobotName c)
                               (acc_Name account)))
                else
                  match scan_tokens c account ts None with
                  | Err err => (w2, Some err)
                  | Ok None =>
                      (w2, Some (errFindToken (TokenName c) (RobotName c)
                                   (acc_Name account)))
                  | Ok (Some tid) =>
                      let '(a3, derr) := Delete a2 tid in
                      let w3 := {| api := a3;
                                   calls := calls w2 ++ [DeleteCall tid];
                                   printed := printed w |} in
                      match derr with
                      | Some err => (w3, Some err)
                      | None =>
                          ({| api := a3;
                              calls := calls w2 ++ [DeleteCall tid];
                              printed := printed w
                                ++ [acc_Name account ++ "/" ++ RobotName c
                                    ++ "/" ++ TokenName c ++ " deleted"] |},
                           None)
                      end
                  end
            end
        end
  end.

(** The tokens of a listing whose name attribute prints as the requested
    name, in the order of the listing. *)
Definition matching_tokens (c : deleteCmd) (ts : list Token) : list Token :=
  filter (fun t => String.eqb (Sprint (AttributeSet t "name")) (TokenName c))
    ts.

End Run.

Arguments tok_ID {Attr} _.
Arguments AttributeSet {Attr} _ _.
Arguments scan_tokens {Attr} Sprint errMultipleToken c account ts tid.
Arguments matching_tokens {Attr} Sprint c ts.
Arguments Run {Attr} Sprint errFindRobot errMultipleRobot errFindToken
  errMultipleToken {API} ListRobots ListTokens Delete c account w.
Arguments api {API} _.
Arguments calls {API} _.
Arguments printed {API} _.

(** *** An API to run the command on *)

(** Attributes that are strings, printed as they are; a missing key prints
    as the nil interface does. *)
Definition Sprint_string (v : option string) : string :=
  match v with
  | Some s => s
  | None => "<nil>"
  end.

(** An attribute set with the single key [name]. *)
Definition named (name : string) (key : string) : option string :=
  if String.eqb key "name" then Some name else None.

(** Messages to stand for the two token formats. *)
Definition sample_errFindToken (token robot account : string) : error :=
  "could not find token " ++ token ++ " for robot " ++ robot ++ " in "
  ++ account.

Definition sample_errMultipleToken (token robot account : string) : error :=
  "found multiple tokens with name " ++ token ++ " for robot " ++ robot
  ++ " in " ++ account.

(** The robots of the account and the tokens of each robot. *)
Definition Store := (list Robot * (UUID -> list (Token string)))%type.

Definition Store_ListRobots (s : Store) (account : N)
  : Store * result (list Robot) :=
  (s, Ok (fst s)).

Definition Store_ListTokens (s : Store) (rid : UUID)
  : Store * result (list (Token string)) :=
  (s, Ok (snd s rid)).

Definition Store_Delete (s : Store) (tid : UUID) : Store * option error :=
  ((fst s,
    fun rid => filter (fun t => negb (N.eqb (tok_ID t) tid)) (snd s rid)),
   None).

(** One robot named [ci] with three tokens, the first and the last of them
    named [deploy]; two robots named [ci]. *)
Definition one_robot_three_tokens : Store :=
  ([ {| ID := 1%N; Name := "ci" |}; {| ID := 2%N; Name := "build" |} ],
   fun rid =>
     if N.eqb rid 1 then
       [ {| tok_ID := 11%N; AttributeSet := named "deploy" |};
         {| tok_ID := 12%N; AttributeSet := named "test" |};
         {| tok_ID := 13%N; AttributeSet := named "deploy" |} ]
     else []).

Definition two_robots_one_name : Store :=
  (three_robots,
   fun rid => [ {| tok_ID := 11%N; AttributeSet := named "deploy" |} ]).

End Token.

(* ================================================================= *)
(** * Properties of the encoder *)

Module EncoderFacts.

Import Json.

Section Sink.

Variable W : Type.
Variable Write : W -> bytes -> W * (nat * option error).
Variable Event : Type.
Variable Marshal : Event -> result bytes.

Lemma written_app (ws : world W) (c : WriteCall) :
  written {| sink := sink ws; trace := trace ws ++ [c] |}
  = written ws ++ accepted c.
Proof.
  unfold written; simpl.
  rewrite map_app, concat_app; simpl.
  now rewrite app_nil_r.
Qed.

(** A write is recorded as one more call, whatever its outcome. *)
Lemma do_Write_trace ws p ws' r :
  do_Write Write ws p = (ws', r) ->
  exists n, trace ws' = trace ws ++ [{| wc_p := p; wc_n := n; wc_err := r |}].
Proof.
  unfold do_Write.
  destruct (Write (sink ws) p) as [s' [n err]].
  intros H; inversion H; subst; simpl.
  now exists n.
Qed.

(** A write the sink accepted extends the stream by the whole slice. *)
Lemma do_Write_ok ws p ws' :
  do_Write Write ws p = (ws', None) ->
  written ws' = written ws ++ p.
Proof.
  intros H.
  destruct (do_Write_trace _ _ _ _ H) as [n Ht].
  unfold written. rewrite Ht, map_app, concat_app; simpl.
  now rewrite app_nil_r.
Qed.

Lemma New_ok ws ws' e :
  NewMCPGVKEventEncoder Write ws = (ws', Ok e) ->
  written ws' = written ws ++ [b_lbracket] /\ wroteFirstItem e = false.
Proof.
  unfold NewMCPGVKEventEncoder.
  destruct (do_Write Write ws [b_lbracket]) as [ws1 [err|]] eqn:Hw;
    intros H; inversion H; subst.
  split; [now apply do_Write_ok | reflexivity].
Qed.

Lemma Encode_ok ws e event ws' e' :
  Encode Write Marshal ws e event = (ws', e', None) ->
  exists b, Marshal event = Ok b
    /\ written ws' = written ws ++ separator e ++ b
    /\ wroteFirstItem e' = true.
Proof.
  unfold Encode, separator.
  destruct (Marshal event) as [b|err]; [|discriminate].
  destruct (do_Write Write ws _) as [ws1 [err|]] eqn:Hw;
    intros H; inversion H; subst.
  exists b. split; [reflexivity|]. split; [|reflexivity].
  rewrite (do_Write_ok _ _ _ Hw).
  now destruct (wroteFirstItem e).
Qed.

Lemma Close_ok ws e ws' :
  Close Write ws e = (ws', None) ->
  written ws' = written ws ++ closing.
Proof. apply do_Write_ok. Qed.

(** On a sink that accepts every write, a write cannot fail. *)
Lemma do_Write_accepts ws p :
  accepts_all Write -> exists ws', do_Write Write ws p = (ws', None).
Proof.
  intros Ha. unfold do_Write.
  specialize (Ha (sink ws) p).
  destruct (Write (sink ws) p) as [s' [n err]]; simpl in Ha; subst.
  eexists; reflexivity.
Qed.

End Sink.

End EncoderFacts.

(* ================================================================= *)
(** * Properties of the JSON reader *)

Module JsonTextFacts.

Import Json JsonText.

(** Scanning a concatenation is scanning its parts in turn. *)
Lemma run_app s t : forall m,
  run m (s ++ t) =
  match run m s with
  | None => None
  | Some (m', o1) =>
      match run m' t with
      | None => None
      | Some (mf, o2) => Some (mf, o1 ++ o2)
      end
  end.
Proof.
  induction s as [|c s IH]; intros m; simpl.
  - destruct (run m t) as [[mf o2]|]; reflexivity.
  - destruct (step m c) as [[m' out]|]; [|reflexivity].
    rewrite IH.
    destruct (run m' s) as [[m1 o1]|]; [|reflexivity].
    destruct (run m1 t) as [[mf o2]|]; [|reflexivity].
    now rewrite app_assoc.
Qed.

(** After a newline the scanner is between two tokens. *)
Lemma step_newline m m' out :
  step m b_newline = Some (m', out) -> m' = LBoundary.
Proof.
  destruct m as [|rest tok|acc|acc|acc k|ns acc]; simpl.
  - intros H; inversion H; reflexivity.
  - destruct rest as [|x rest]; discriminate.
  - discriminate.
  - discriminate.
  - discriminate.
  - destruct ns; simpl; try discriminate;
      intros H; inversion H; reflexivity.
Qed.

Lemma run_snoc_newline s : forall m mf out,
  run m (s ++ [b_newline]) = Some (mf, out) -> mf = LBoundary.
Proof.
  intros m mf out. rewrite run_app.
  destruct (run m s) as [[m1 o1]|]; [|discriminate].
  cbn [run].
  destruct (step m1 b_newline) as [[m2 o2]|] eqn:E; [|discriminate].
  apply step_newline in E. subst m2.
  intros H; inversion H; reflexivity.
Qed.

(** Text that ends in a newline and scans to [ts] leaves the scanner
    between two tokens; what follows is scanned on its own. *)
Lemma lex_app_newline s t ts :
  lex (s ++ [b_newline]) = Some ts ->
  lex ((s ++ [b_newline]) ++ t) =
  match lex t with
  | None => None
  | Some us => Some (ts ++ us)
  end.
Proof.
  unfold lex. rewrite (run_app (s ++ [b_newline]) t).
  destruct (run LBoundary (s ++ [b_newline])) as [[m1 o1]|] eqn:E;
    [|discriminate].
  pose proof (run_snoc_newline _ _ _ _ E) as ->.
  simpl. rewrite app_nil_r. intros H; inversion H; subst.
  destruct (run LBoundary t) as [[mf o2]|]; [|reflexivity].
  destruct (finish mf); [|reflexivity].
  now rewrite app_assoc.
Qed.

(** One unfolding of each reader. *)
Lemma parse_value_S n ts :
  parse_value (S n) ts =
  match ts with
  | TNull :: r => Some (JNull, r)
  | TTrue :: r => Some (JBool true, r)
  | TFalse :: r => Some (JBool false, r)
  | TNum l :: r => Some (JNum l, r)
  | TStr l :: r => Some (JStr l, r)
  | TLBracket :: TRBracket :: r => Some (JArr [], r)
  | TLBracket :: r =>
      match parse_elems n r with
      | Some (vs, r') => Some (JArr vs, r')
      | None => None
      end
  | TLBrace :: TRBrace :: r => Some (JObj [], r)
  | TLBrace :: r =>
      match parse_members n r with
      | Some (ms, r') => Some (JObj ms, r')
      | None => None
      end
  | _ => None
  end.
Proof. reflexivity. Qed.

Lemma parse_elems_S n ts :
  parse_elems (S n) ts =
  match parse_value n ts with
  | Some (v, TComma :: r) =>
      match parse_elems n r with
      | Some (vs, r') => Some (v :: vs, r')
      | None => None
      end
  | Some (v, TRBracket :: r) => Some ([v], r)
  | _ => None
  end.
Proof. reflexivity. Qed.

Lemma parse_members_S n ts :
  parse_members (S n) ts =
  match ts with
  | TStr k :: TColon :: r =>
      match parse_value n r with
      | Some (v, TComma :: r') =>
          match parse_members n r' with
          | Some (ms, r'') => Some ((k, v) :: ms, r'')
          | None => None
          end
      | Some (v, TRBrace :: r') => Some ([(k, v)], r')
      | _ => None
      end
  | _ => None
  end.
Proof. reflexivity. Qed.

(** More depth never changes an answer. *)
Lemma parse_mono n :
  (forall ts r, parse_value n ts = Some r -> parse_value (S n) ts = Some r)
  /\ (forall ts r, parse_elems n ts = Some r -> parse_elems (S n) ts = Some r)
  /\ (forall ts r,
        parse_members n ts = Some r -> parse_members (S n) ts = Some r).
Proof.
  induction n as [|n (IHv & IHe & IHm)].
  - repeat split; intros; discriminate.
  - repeat split; intros ts r H.
    + rewrite parse_value_S in H |- *.
      destruct ts as [|[] ts]; try exact H.
      * destruct ts as [|[] ts]; try exact H;
          (destruct (parse_members n _) as [[ms r']|] eqn:E;
           [apply IHm in E; rewrite E; exact H | discriminate]).
      * destruct ts as [|[] ts]; try exact H;
          (destruct (parse_elems n _) as [[vs r']|] eqn:E;
           [apply IHe in E; rewrite E; exact H | discriminate]).
    + rewrite parse_elems_S in H |- *.
      destruct (parse_value n ts) as [[v r1]|] eqn:E; [|discriminate].
      apply IHv in E. rewrite E.
      destruct r1 as [|[] r1]; try exact H.
      destruct (parse_elems n r1) as [[vs r']|] eqn:E2; [|discriminate].
      apply IHe in E2. rewrite E2. exact H.
    + rewrite parse_members_S in H |- *.
      destruct ts as [|[] ts]; try exact H.
      destruct ts as [|[] ts]; try exact H.
      destruct (parse_value n ts) as [[v r1]|] eqn:E; [|discriminate].
      apply IHv in E. rewrite E.
      destruct r1 as [|[] r1]; try exact H.
      destruct (parse_members n r1) as [[ms r']|] eqn:E2; [|discriminate].
      apply IHm in E2. rewrite E2. exact H.
Qed.

Lemma parse_value_le n m ts r :
  (n <= m)%nat -> parse_value n ts = Some r -> parse_value m ts = Some r.
Proof.
  induction 1 as [|m Hle IH]; [trivial|].
  intros H. apply (proj1 (parse_mono m)). auto.
Qed.

Lemma parse_elems_nil n : parse_elems n [] = None.
Proof. destruct n as [|[|n]]; reflexivity. Qed.

Lemma parse_members_nil n : parse_members n [] = None.
Proof. destruct n; reflexivity. Qed.

Lemma parse_elems_le n m ts r :
  (n <= m)%nat -> parse_elems n ts = Some r -> parse_elems m ts = Some r.
Proof.
  induction 1 as [|m Hle IH]; [trivial|].
  intros H. apply (proj1 (proj2 (parse_mono m))). auto.
Qed.

Lemma parse_members_le n m ts r :
  (n <= m)%nat -> parse_members n ts = Some r -> parse_members m ts = Some r.
Proof.
  induction 1 as [|m Hle IH]; [trivial|].
  intros H. apply (proj2 (proj2 (parse_mono m))). auto.
Qed.

(** An answer found at some depth is found within twice the number of
    tokens it consumed. *)
Lemma parse_depth n :
  (forall ts v r,
      parse_value n ts = Some (v, r) ->
      (length r < length ts)%nat
      /\ exists f, (f + 1 <= 2 * (length ts - length r))%nat
                   /\ parse_value f ts = Some (v, r))
  /\ (forall ts vs r,
        parse_elems n ts = Some (vs, r) ->
        (length r < length ts)%nat
        /\ exists f, (f + 2 <= 2 * (length ts - length r))%nat
                     /\ parse_elems f ts = Some (vs, r))
  /\ (forall ts ms r,
        parse_members n ts = Some (ms, r) ->
        (length r < length ts)%nat
        /\ exists f, (f + 2 <= 2 * (length ts - length r))%nat
                     /\ parse_members f ts = Some (ms, r)).
Proof.
  induction n as [|n (IHv & IHe & IHm)].
  - split; [|split]; intros; discriminate.
  - split; [|split].
    + intros ts v r H. rewrite parse_value_S in H.
      destruct ts as [|tok ts]; [discriminate|].
      destruct tok; try discriminate;
        try (inversion H; subst; cbn [length]; split; [lia|];
             exists 1%nat; split; [lia | reflexivity]).
      * destruct ts as [|tok2 ts].
        { now rewrite parse_members_nil in H. }
        destruct tok2;
          try (inversion H; subst; cbn [length]; split; [lia|];
               exists 1%nat; split; [lia | reflexivity]);
          (destruct (parse_members n _) as [[ms r']|] eqn:E;
           [|discriminate]; inversion H; subst;
           destruct (IHm _ _ _ E) as (Hlen & f & Hf & Hp);
           cbn [length] in Hlen, Hf |- *; split; [lia|];
           exists (S f); split; [lia|];
           rewrite parse_value_S, Hp; reflexivity).
      * destruct ts as [|tok2 ts].
        { now rewrite parse_elems_nil in H. }
        destruct tok2;
          try (inversion H; subst; cbn [length]; split; [lia|];
               exists 1%nat; split; [lia | reflexivity]);
          (destruct (parse_elems n _) as [[vs r']|] eqn:E;
           [|discriminate]; inversion H; subst;
           destruct (IHe _ _ _ E) as (Hlen & f & Hf & Hp);
           cbn [length] in Hlen, Hf |- *; split; [lia|];
           exists (S f); split; [lia|];
           rewrite parse_value_S, Hp; reflexivity).
    + intros ts vs r H. rewrite parse_elems_S in H.
      destruct (parse_value n ts) as [[v r1]|] eqn:E; [|discriminate].
      destruct (IHv _ _ _ E) as (Hlen & f & Hf & Hp).
      destruct r1 as [|tok r1]; [discriminate|].
      destruct tok; try discriminate.
      * inversion H; subst. cbn [length] in Hlen, Hf |- *. split; [lia|].
        exists (S f). split; [lia|].
        rewrite parse_elems_S, Hp. reflexivity.
      * destruct (parse_elems n r1) as [[vs' r']|] eqn:E2; [|discriminate].
        inversion H; subst.
        destruct (IHe _ _ _ E2) as (Hlen2 & f2 & Hf2 & Hp2).
        cbn [length] in Hlen, Hf |- *. split; [lia|].
        exists (S (Nat.max f f2)). split; [lia|].
        rewrite parse_elems_S.
        rewrite (parse_value_le f (Nat.max f f2) _ _ (Nat.le_max_l _ _) Hp).
        rewrite (parse_elems_le f2 (Nat.max f f2) _ _ (Nat.le_max_r _ _) Hp2).
        reflexivity.
    + intros ts ms r H. rewrite parse_members_S in H.
      destruct ts as [|tok ts]; [discriminate|].
      destruct tok; try discriminate.
      destruct ts as [|tok2 ts]; [discriminate|].
      destruct tok2; try discriminate.
      destruct (parse_value n ts) as [[v r1]|] eqn:E; [|discriminate].
      destruct (IHv _ _ _ E) as (Hlen & f & Hf & Hp).
      destruct r1 as [|tok r1]; [discriminate|].
      destruct tok; try discriminate.
      * inversion H; subst. cbn [length] in Hlen, Hf |- *. split; [lia|].
        exists (S f). split; [lia|].
        rewrite parse_members_S, Hp. reflexivity.
      * destruct (parse_members n r1) as [[ms' r']|] eqn:E2; [|discriminate].
        inversion H; subst.
        destruct (IHm _ _ _ E2) as (Hlen2 & f2 & Hf2 & Hp2).
        cbn [length] in Hlen, Hf |- *. split; [lia|].
        exists (S (Nat.max f f2)). split; [lia|].
        rewrite parse_members_S.
        rewrite (parse_value_le f (Nat.max f f2) _ _ (Nat.le_max_l _ _) Hp).
        rewrite (parse_members_le f2 (Nat.max f f2) _ _ (Nat.le_max_r _ _) Hp2).
        reflexivity.
Qed.

(** The depth [parse_doc] allows is enough: a value found at any depth is
    found at that one. *)
Lemma depth_for_enough n ts v r :
  parse_value n ts = Some (v, r) ->
  parse_value (depth_for ts) ts = Some (v, r).
Proof.
  intros H.
  destruct (proj1 (parse_depth n) _ _ _ H) as (Hlen & f & Hf & Hp).
  apply (parse_value_le f); [|exact Hp].
  unfold depth_for. lia.
Qed.

(** A reader that succeeded has seen every token it depends on: tokens
    added behind the input are handed back untouched. *)
Lemma parse_app n :
  (forall ts v r t,
      parse_value n ts = Some (v, r) ->
      parse_value n (ts ++ t) = Some (v, r ++ t))
  /\ (forall ts vs r t,
        parse_elems n ts = Some (vs, r) ->
        parse_elems n (ts ++ t) = Some (vs, r ++ t))
  /\ (forall ts ms r t,
        parse_members n ts = Some (ms, r) ->
        parse_members n (ts ++ t) = Some (ms, r ++ t)).
Proof.
  induction n as [|n (IHv & IHe & IHm)].
  - repeat split; intros; discriminate.
  - repeat split.
    + intros ts v r t H. rewrite parse_value_S in H |- *.
      destruct ts as [|tok ts]; [discriminate|].
      destruct tok; try discriminate;
        try (inversion H; subst; reflexivity).
      * (* an object *)
        destruct ts as [|tok2 ts].
        { now rewrite parse_members_nil in H. }
        destruct tok2;
          try (inversion H; subst; reflexivity);
          (destruct (parse_members n _) as [[ms r']|] eqn:E;
           [|discriminate]; inversion H; subst;
           apply (IHm _ _ _ t) in E; simpl in E |- *; now rewrite E).
      * (* an array *)
        destruct ts as [|tok2 ts].
        { now rewrite parse_elems_nil in H. }
        destruct tok2;
          try (inversion H; subst; reflexivity);
          (destruct (parse_elems n _) as [[vs r']|] eqn:E;
           [|discriminate]; inversion H; subst;
           apply (IHe _ _ _ t) in E; simpl in E |- *; now rewrite E).
    + intros ts vs r t H. rewrite parse_elems_S in H |- *.
      destruct (parse_value n ts) as [[v r1]|] eqn:E; [|discriminate].
      rewrite (IHv _ _ _ t E).
      destruct r1 as [|tok r1]; [discriminate|].
      destruct tok; try discriminate; simpl.
      * inversion H; subst; reflexivity.
      * destruct (parse_elems n r1) as [[vs' r']|] eqn:E2; [|discriminate].
        rewrite (IHe _ _ _ t E2). inversion H; subst; reflexivity.
    + intros ts ms r t H. rewrite parse_members_S in H |- *.
      destruct ts as [|tok ts]; [discriminate|].
      destruct tok; try discriminate.
      destruct ts as [|tok2 ts]; [discriminate|].
      destruct tok2; try discriminate. simpl.
      destruct (parse_value n ts) as [[v r1]|] eqn:E; [|discriminate].
      rewrite (IHv _ _ _ t E).
      destruct r1 as [|tok r1]; [discriminate|].
      destruct tok; try discriminate; simpl.
      * inversion H; subst; reflexivity.
      * destruct (parse_members n r1) as [[ms' r']|] eqn:E2; [|discriminate].
        rewrite (IHm _ _ _ t E2). inversion H; subst; reflexivity.
Qed.

(** A document followed by one more token is no document. *)
Lemma parse_doc_app ts v us :
  parse_doc ts = Some v -> us <> [] -> parse_doc (ts ++ us) = None.
Proof.
  unfold parse_doc. intros H Hus.
  destruct (parse_value (depth_for ts) ts) as [[v' r]|] eqn:E;
    [|discriminate].
  destruct r; [|discriminate].
  apply (proj1 (parse_app _) _ _ _ us) in E.
  apply (parse_value_le _ (depth_for (ts ++ us))) in E.
  - rewrite E. simpl. destruct us; [contradiction|reflexivity].
  - unfold depth_for. rewrite length_app. lia.
Qed.

(** Well-formed text that ends in a newline stops being well-formed when
    text with at least one token is put behind it. *)
Lemma json_parse_after s v t :
  json_parse (s ++ [b_newline]) = Some v ->
  lex t <> Some [] ->
  json_parse ((s ++ [b_newline]) ++ t) = None.
Proof.
  unfold json_parse. intros H Ht.
  destruct (lex (s ++ [b_newline])) as [ts|] eqn:E; [|discriminate].
  rewrite (lex_app_newline _ t _ E).
  destruct (lex t) as [us|]; [|reflexivity].
  apply (parse_doc_app _ _ _ H). congruence.
Qed.

(** Text that is a document has at least one token. *)
Lemma json_parse_tokens s v : json_parse s = Some v -> lex s <> Some [].
Proof.
  unfold json_parse. intros H E. rewrite E in H. discriminate.
Qed.

End JsonTextFacts.

(* ================================================================= *)
(** * The encoder's output and its error behaviour *)

Module EncoderSpec.

Import Json JsonText EncoderFacts JsonTextFacts.

Section Sink.

Variable W : Type.
Variable Write : W -> bytes -> W * (nat * option error).
Variable Event : Type.
Variable Marshal : Event -> result bytes.

(** The events that were encoded without error, and what they added. *)
Lemma encode_each_ok events : forall ws e ws' e',
  encode_each Write Marshal ws e events = (ws', e', None) ->
  exists bs,
    Forall2 (fun event b => Marshal event = Ok b) events bs
    /\ written ws' = written ws ++ items (wroteFirstItem e) bs.
Proof.
  induction events as [|event rest IH]; intros ws e ws' e' H; simpl in H.
  - inversion H; subst. exists []. split; [constructor|].
    simpl. now rewrite app_nil_r.
  - destruct (Encode Write Marshal ws e event) as [[ws1 e1] [err|]] eqn:E;
      [discriminate|].
    destruct (Encode_ok _ _ _ _ _ _ _ _ _ E) as (b & Hb & Hw & Hf).
    destruct (IH _ _ _ _ H) as (bs & Hbs & Hw').
    exists (b :: bs). split; [now constructor|].
    rewrite Hw', Hw, Hf. unfold separator. simpl.
    now rewrite <- !app_assoc.
Qed.

(** A run of the documented protocol that reported no error put
    [array_text] of the marshalled records on the sink. *)
Lemma write_array_ok ws events ws' :
  write_array Write Marshal ws events = (ws', None) ->
  exists bs,
    Forall2 (fun event b => Marshal event = Ok b) events bs
    /\ written ws' = written ws ++ array_text bs.
Proof.
  unfold write_array.
  destruct (NewMCPGVKEventEncoder Write ws) as [ws1 [e|err]] eqn:En;
    [|discriminate].
  destruct (New_ok _ _ _ _ _ En) as [Hw1 Hf1].
  destruct (encode_each Write Marshal ws1 e events)
    as [[ws2 e2] [err|]] eqn:Ee; [discriminate|].
  destruct (encode_each_ok _ _ _ _ _ Ee) as (bs & Hbs & Hw2).
  intros Hc. apply Close_ok in Hc.
  exists bs. split; [exact Hbs|].
  rewrite Hc, Hw2, Hw1, Hf1. unfold array_text.
  now rewrite <- !app_assoc.
Qed.

(** On a sink that accepts every write, the protocol succeeds whenever
    every event can be marshalled. *)
Lemma encode_each_accepts events : forall bs ws e,
  accepts_all Write ->
  Forall2 (fun event b => Marshal event = Ok b) events bs ->
  exists ws' e', encode_each Write Marshal ws e events = (ws', e', None).
Proof.
  induction events as [|event rest IH]; intros bs ws e Ha Hbs.
  - simpl. eauto.
  - inversion Hbs as [|? b ? bs' Hb Hrest]; subst. simpl.
    unfold Encode. rewrite Hb.
    destruct (do_Write_accepts _ Write ws
                ((if wroteFirstItem e then [] ++ [b_comma] else [])
                 ++ [b_newline] ++ b) Ha) as [ws1 Hw].
    rewrite <- app_assoc. rewrite Hw.
    eapply IH; eauto.
Qed.

Lemma write_array_accepts ws events bs :
  accepts_all Write ->
  Forall2 (fun event b => Marshal event = Ok b) events bs ->
  exists ws', write_array Write Marshal ws events = (ws', None).
Proof.
  intros Ha Hbs. unfold write_array, NewMCPGVKEventEncoder.
  destruct (do_Write_accepts _ Write ws [b_lbracket] Ha) as [ws1 ->].
  destruct (encode_each_accepts _ _ ws1 {| wroteFirstItem := false |} Ha Hbs)
    as (ws2 & e2 & ->).
  apply do_Write_accepts; assumption.
Qed.

(** C6 (amended): when two records are encoded without error and the
    encoder is closed, the stream on the sink grows by exactly the open
    bracket, a newline, the first record, a comma, a newline, the second
    record, a newline, the close bracket and a newline: the comma follows
    the first record directly and a newline precedes each record. *)
Theorem two_records_stream ws event1 event2 ws' :
  write_array Write Marshal ws [event1; event2] = (ws', None) ->
  exists b1 b2,
    Marshal event1 = Ok b1 /\ Marshal event2 = Ok b2
    /\ written ws' =
       written ws ++ [b_lbracket; b_newline] ++ b1 ++ [b_comma; b_newline]
       ++ b2 ++ [b_newline; b_rbracket; b_newline].
Proof.
  intros H. apply write_array_ok in H. destruct H as (bs & Hbs & Hw).
  inversion Hbs as [|? b1 ? bs1 Hb1 Hbs1]; subst.
  inversion Hbs1 as [|? b2 ? bs2 Hb2 Hbs2]; subst.
  inversion Hbs2; subst.
  exists b1, b2. repeat split; try assumption.
  rewrite Hw. unfold array_text, closing. simpl.
  now rewrite app_nil_r, <- app_assoc.
Qed.

(** C7: on a sink that accepts writes, constructing the encoder and
    closing it with no record in between yields text that reads as the
    empty JSON array, and encoding the record with member a set to 1, then
    the record with member b set to 2, and closing yields text that reads
    as the array of these two objects in this order. *)
Theorem round_trip ws :
  accepts_all Write ->
  (exists ws' out,
      write_array Write Marshal ws [] = (ws', None)
      /\ written ws' = written ws ++ out
      /\ json_parse out = Some (JArr []))
  /\ (forall event1 event2,
        Marshal event1 = Ok record_a1 ->
        Marshal event2 = Ok record_b2 ->
        exists ws' out,
          write_array Write Marshal ws [event1; event2] = (ws', None)
          /\ written ws' = written ws ++ out
          /\ json_parse out =
             Some (JArr [JObj [([x61], JNum [x31])];
                         JObj [([x62], JNum [x32])]])).
Proof.
  intros Ha. split.
  - destruct (write_array_accepts ws [] [] Ha)
      as [ws' H]; [constructor|].
    exists ws', (array_text []). split; [exact H|].
    apply write_array_ok in H. destruct H as (bs & Hbs & Hw).
    inversion Hbs; subst. split; [exact Hw | reflexivity].
  - intros event1 event2 H1 H2.
    destruct (write_array_accepts ws [event1; event2]
                [record_a1; record_b2] Ha) as [ws' H];
      [repeat constructor; assumption|].
    exists ws', (array_text [record_a1; record_b2]).
    split; [exact H|].
    apply write_array_ok in H. destruct H as (bs & Hbs & Hw).
    inversion Hbs as [|? b1 ? bs1 Hb1 Hbs1]; subst.
    inversion Hbs1 as [|? b2 ? bs2 Hb2 Hbs2]; subst.
    inversion Hbs2; subst.
    rewrite H1 in Hb1. rewrite H2 in Hb2.
    inversion Hb1; inversion Hb2; subst.
    split; [exact Hw | reflexivity].
Qed.

(** The slice [Encode] hands to the sink. *)
Lemma Encode_marshalled ws e event b :
  Marshal event = Ok b ->
  Encode Write Marshal ws e event =
  match do_Write Write ws (separator e ++ b) with
  | (ws', None) => (ws', {| wroteFirstItem := true |}, None)
  | (ws', Some err) => (ws', e, Some err)
  end.
Proof.
  intros Hb. unfold Encode, separator. rewrite Hb.
  destruct (wroteFirstItem e); simpl;
    destruct (do_Write Write ws _) as [ws1 [err|]]; reflexivity.
Qed.

(** C8: [Encode] keeps the separator state in step with the sink. When
    marshalling the record fails, [Encode] returns that error, makes no
    call on the sink and leaves the encoder as it was; when the write
    fails, [Encode] returns that error and leaves [wroteFirstItem] at its
    prior value; and [wroteFirstItem] turns from false to true only in a
    call whose single write was answered without error. *)
Theorem Encode_atomic ws e event :
  (forall err,
      Marshal event = Err err ->
      Encode Write Marshal ws e event = (ws, e, Some err))
  /\ (forall b ws' err,
        Marshal event = Ok b ->
        do_Write Write ws (separator e ++ b) = (ws', Some err) ->
        Encode Write Marshal ws e event = (ws', e, Some err))
  /\ (forall ws' e' r,
        Encode Write Marshal ws e event = (ws', e', r) ->
        wroteFirstItem e = false ->
        wroteFirstItem e' = true ->
        r = None
        /\ exists b n,
            Marshal event = Ok b
            /\ trace ws' =
               trace ws
               ++ [{| wc_p := separator e ++ b; wc_n := n;
                      wc_err := None |}]).
Proof.
  split; [|split].
  - intros err Hm. unfold Encode. now rewrite Hm.
  - intros b ws' err Hm Hw.
    rewrite (Encode_marshalled _ _ _ _ Hm), Hw. reflexivity.
  - intros ws' e' r H Hf Ht.
    destruct (Marshal event) as [b|err] eqn:Hm.
    + rewrite (Encode_marshalled _ _ _ _ Hm) in H.
      destruct (do_Write Write ws (separator e ++ b)) as [ws1 [err|]] eqn:Hw;
        inversion H; subst.
      * congruence.
      * split; [reflexivity|].
        destruct (do_Write_trace _ _ _ _ _ _ Hw) as [n Hn].
        now exists b, n.
    + unfold Encode in H. rewrite Hm in H. inversion H; subst. congruence.
Qed.

(** Text with a token stays so behind a separator. *)
Lemma lex_separator e b :
  lex b <> Some [] -> lex (separator e ++ b) <> Some [].
Proof.
  unfold separator, lex.
  destruct (wroteFirstItem e); simpl;
    destruct (run LBoundary b) as [[m out]|]; try discriminate;
    destruct (finish m); try discriminate; auto.
Qed.

(** C9: the encoder has no notion of being closed. On a sink that accepts
    writes, [Close] returns no error, a second [Close] writes the closing
    sequence once more and returns no error, and an [Encode] after [Close]
    writes its separator and record behind the close bracket and returns
    no error. If the stream was a well-formed JSON array after the first
    [Close], it is no JSON document after the second [Close], nor after
    the late [Encode] of a record that is JSON text. *)
Theorem no_lifecycle ws e :
  accepts_all Write ->
  exists ws1,
    Close Write ws e = (ws1, None)
    /\ written ws1 = written ws ++ closing
    /\ (exists ws2,
          Close Write ws1 e = (ws2, None)
          /\ written ws2 = written ws ++ closing ++ closing
          /\ (is_json_array (written ws1) ->
              json_parse (written ws2) = None))
    /\ (forall event b,
          Marshal event = Ok b ->
          exists ws2 e',
            Encode Write Marshal ws1 e event = (ws2, e', None)
            /\ written ws2 = written ws ++ closing ++ separator e ++ b
            /\ (is_json_array (written ws1) ->
                (exists v, json_parse b = Some v) ->
                json_parse (written ws2) = None)).
Proof.
  intros Ha.
  destruct (do_Write_accepts _ Write ws closing Ha) as [ws1 H1].
  pose proof (do_Write_ok _ _ _ _ _ H1) as Hw1.
  assert (Hend : written ws1
                 = (written ws ++ [b_newline; b_rbracket]) ++ [b_newline]).
  { rewrite Hw1. unfold closing. now rewrite <- app_assoc. }
  exists ws1. split; [exact H1|]. split; [exact Hw1|]. split.
  - destruct (do_Write_accepts _ Write ws1 closing Ha) as [ws2 H2].
    pose proof (do_Write_ok _ _ _ _ _ H2) as Hw2.
    exists ws2. split; [exact H2|]. split.
    + rewrite Hw2, Hw1. now rewrite <- app_assoc.
    + intros [elems Harr]. rewrite Hw2, Hend. rewrite Hend in Harr.
      apply (json_parse_after _ _ _ Harr). discriminate.
  - intros event b Hm.
    rewrite (Encode_marshalled _ _ _ _ Hm).
    destruct (do_Write_accepts _ Write ws1 (separator e ++ b) Ha)
      as [ws2 H2].
    pose proof (do_Write_ok _ _ _ _ _ H2) as Hw2.
    rewrite H2. exists ws2, {| wroteFirstItem := true |}.
    split; [reflexivity|]. split.
    + rewrite Hw2, Hw1. now rewrite <- app_assoc.
    + intros [elems Harr] [v Hv]. rewrite Hw2, Hend. rewrite Hend in Harr.
      apply (json_parse_after _ _ _ Harr).
      apply lex_separator. now apply (json_parse_tokens _ v).
Qed.

End Sink.

(** The two-record stream is not the one with a newline between the first
    record and the comma: on a buffer, the two records of the round-trip
    scenario are encoded without error and the stream differs from the
    described one. *)
Lemma two_records_stream_not_as_described :
  let out :=
    write_array Buffer_Write Marshal_opt fresh_buffer
      [Some record_a1; Some record_b2] in
  snd out = None
  /\ written (fst out) <> described_stream record_a1 record_b2.
Proof. vm_compute. split; [reflexivity | discriminate]. Qed.

Lemma two_records_stream_witness :
  exists b1 b2,
    Marshal_opt (Some record_a1) = Ok b1
    /\ Marshal_opt (Some record_b2) = Ok b2
    /\ written
         (fst (write_array Buffer_Write Marshal_opt fresh_buffer
                 [Some record_a1; Some record_b2]))
       = written fresh_buffer ++ [b_lbracket; b_newline] ++ b1
         ++ [b_comma; b_newline] ++ b2
         ++ [b_newline; b_rbracket; b_newline].
Proof.
  apply (two_records_stream Buffer Buffer_Write (option bytes) Marshal_opt
           fresh_buffer (Some record_a1) (Some record_b2)).
  reflexivity.
Defined.

Lemma round_trip_witness :
  exists ws' out,
    write_array Buffer_Write Marshal_opt fresh_buffer
      [Some record_a1; Some record_b2] = (ws', None)
    /\ written ws' = written fresh_buffer ++ out
    /\ json_parse out =
       Some (JArr [JObj [([x61], JNum [x31])]; JObj [([x62], JNum [x32])]]).
Proof.
  apply (proj2 (round_trip Buffer Buffer_Write (option bytes) Marshal_opt
                  fresh_buffer (fun s p => eq_refl)));
    reflexivity.
Defined.

(** A sink with room for three bytes: the opening bracket fits, the first
    record does not, and the encoder still counts no item as written. *)
Lemma Encode_atomic_witness :
  Encode Limited_Write Marshal_opt
    (fst (do_Write Limited_Write (fresh ([], 3%nat)) [b_lbracket]))
    {| wroteFirstItem := false |} (Some record_a1)
  = ({| sink := ([b_lbracket; b_newline; x7b], 0%nat);
        trace := [{| wc_p := [b_lbracket]; wc_n := 1; wc_err := None |};
                  {| wc_p := b_newline :: record_a1; wc_n := 2;
                     wc_err := Some "short write"%string |}] |},
     {| wroteFirstItem := false |},
     Some "short write"%string).
Proof.
  exact (proj1 (proj2 (Encode_atomic Limited Limited_Write (option bytes)
                         Marshal_opt
                         (fst (do_Write Limited_Write (fresh ([], 3%nat))
                                 [b_lbracket]))
                         {| wroteFirstItem := false |} (Some record_a1)))
           record_a1 _ _ eq_refl eq_refl).
Defined.

(** A buffer the encoder was just constructed on: after one [Close] the
    stream is the empty array, after a second one, or after a late
    [Encode], it is no JSON document. *)
Lemma no_lifecycle_witness :
  let ws := fst (NewMCPGVKEventEncoder Buffer_Write fresh_buffer) in
  let e := {| wroteFirstItem := false |} in
  let ws1 := fst (Close Buffer_Write ws e) in
  let ws2 := fst (Close Buffer_Write ws1 e) in
  let ws3 := fst (fst (Encode Buffer_Write Marshal_opt ws1 e
                         (Some record_a1))) in
  is_json_array (written ws1)
  /\ json_parse (written ws2) = None
  /\ json_parse (written ws3) = None.
Proof.
  intros ws e ws1 ws2 ws3.
  destruct (no_lifecycle Buffer Buffer_Write (option bytes) Marshal_opt ws e
              (fun s p => eq_refl))
    as (ws1' & H1 & _ & (ws2' & H2 & _ & Hclose) & Hencode).
  assert (E1 : ws1' = ws1) by (unfold ws1; now rewrite H1).
  subst ws1'.
  assert (E2 : ws2' = ws2) by (unfold ws2; now rewrite H2).
  subst ws2'.
  destruct (Hencode (Some record_a1) record_a1 eq_refl)
    as (ws3' & e' & H3 & _ & Hlate).
  assert (E3 : ws3' = ws3) by (unfold ws3; now rewrite H3).
  subst ws3'.
  assert (Harr : is_json_array (written ws1)) by (exists []; reflexivity).
  split; [exact Harr|]. split; [exact (Hclose Harr)|].
  apply (Hlate Harr). eexists; reflexivity.
Defined.

End EncoderSpec.

(* ================================================================= *)
(** * The calendar fields and the decimal output *)

Module CalendarFacts.

Import GoTime.

Lemma forall_from_spec n : forall z P,
  forall_from n z P = true ->
  forall x, z <= x < z + Z.of_nat n -> P x = true.
Proof.
  induction n as [|n IH]; intros z P H x Hx.
  - lia.
  - cbn [forall_from] in H. apply andb_prop in H. destruct H as [Hz Hrest].
    destruct (Z.eq_dec x z) as [->|Hne]; [exact Hz|].
    apply (IH _ _ Hrest). lia.
Qed.

Lemma forall_below_spec n P :
  forall_below n P = true -> forall x, 0 <= x < n -> P x = true.
Proof.
  unfold forall_below. intros H x Hx.
  apply (forall_from_spec _ _ _ H). lia.
Qed.

Lemma year_facts yoe : 0 <= yoe < 400 -> year_ok yoe = true.
Proof. apply forall_below_spec. vm_compute. reflexivity. Qed.

Lemma day_of_year_facts doy : 0 <= doy < 366 -> day_of_year_ok doy = true.
Proof. apply forall_below_spec. vm_compute. reflexivity. Qed.

Lemma two_digits x : 0 <= x < 100 -> appendInt x 2 = dec2 x.
Proof.
  intros Hx. apply String.eqb_eq.
  revert x Hx. apply forall_below_spec. vm_compute. reflexivity.
Qed.

Lemma four_digits x : 0 <= x < 10000 -> appendInt x 4 = dec4 x.
Proof.
  intros Hx. apply String.eqb_eq.
  revert x Hx. apply forall_below_spec. vm_compute. reflexivity.
Qed.

(** The year of the era never decreases with the day. *)
Lemma year_of_era_step x : year_of_era x <= year_of_era (x + 1).
Proof.
  unfold year_of_era. apply Z.div_le_mono; [reflexivity|].
  Z.to_euclidean_division_equations. lia.
Qed.

Lemma year_of_era_mono x y : x <= y -> year_of_era x <= year_of_era y.
Proof.
  intros H.
  assert (Hn : forall n : nat, year_of_era x <= year_of_era (x + Z.of_nat n)).
  { induction n as [|n IH].
    - rewrite Z.add_0_r. reflexivity.
    - pose proof (year_of_era_step (x + Z.of_nat n)).
      replace (x + Z.of_nat (S n)) with (x + Z.of_nat n + 1) by lia. lia. }
  specialize (Hn (Z.to_nat (y - x))).
  now replace (x + Z.of_nat (Z.to_nat (y - x))) with y in Hn by lia.
Qed.

(** A day of the era lies in the year [year_of_era] names. *)
Lemma year_of_era_bounds doe :
  0 <= doe < 146097 ->
  0 <= year_of_era doe <= 399
  /\ year_start (year_of_era doe) <= doe <= year_end (year_of_era doe).
Proof.
  intros Hdoe.
  assert (HY : 0 <= year_of_era doe <= 399).
  { pose proof (year_of_era_mono 0 doe ltac:(lia)).
    pose proof (year_of_era_mono doe 146096 ltac:(lia)).
    change (year_of_era 0) with 0 in *.
    change (year_of_era 146096) with 399 in *. lia. }
  split; [exact HY|].
  set (Y := year_of_era doe) in *.
  split.
  - destruct (Z_lt_le_dec doe (year_start Y)) as [Hlt|]; [exfalso | assumption].
    destruct (Z.eq_dec Y 0) as [E0|Hne].
    + rewrite E0 in Hlt. change (year_start 0) with 0 in Hlt. lia.
    + pose proof (year_facts (Y - 1) ltac:(lia)) as Hp. unfold year_ok in Hp.
      repeat (apply andb_prop in Hp; destruct Hp as [Hp ?]).
      match goal with
      | H : (year_of_era (year_end (Y - 1)) =? Y - 1) = true |- _ =>
          apply Z.eqb_eq in H; rename H into Hend
      end.
      unfold year_end in Hend.
      destruct (Z.eqb_spec (Y - 1) 399); [lia|].
      replace (Y - 1 + 1) with Y in Hend by lia.
      pose proof (year_of_era_mono doe (year_start Y - 1) ltac:(lia))
        as Hmono.
      fold Y in Hmono. lia.
  - destruct (Z_lt_le_dec (year_end Y) doe) as [Hlt|]; [exfalso | assumption].
    unfold year_end in Hlt.
    destruct (Z.eqb_spec Y 399); [lia|].
    pose proof (year_facts (Y + 1) ltac:(lia)) as Hp. unfold year_ok in Hp.
    repeat (apply andb_prop in Hp; destruct Hp as [Hp ?]).
    apply Z.eqb_eq in Hp.
    pose proof (year_of_era_mono (year_start (Y + 1)) doe ltac:(lia))
      as Hmono.
    fold Y in Hmono. lia.
Qed.

(** The fields of a day of the era that starts on 0000-03-01 form a date of
    the calendar, and that date is that day. *)
Lemma civil_in_era_correct doe y m d :
  0 <= doe < 146097 ->
  civil_in_era doe = (y, m, d) ->
  valid_date y m d /\ date_to_unix_day y m d = doe - 719468.
Proof.
  intros Hdoe. unfold civil_in_era.
  destruct (year_of_era_bounds doe Hdoe) as (HY & Hs & He).
  set (Y := year_of_era doe) in *.
  pose proof (year_facts Y ltac:(lia)) as Hy. unfold year_ok in Hy.
  repeat (apply andb_prop in Hy; destruct Hy as [Hy ?]).
  repeat match goal with
         | H : (_ =? _) = true |- _ => apply Z.eqb_eq in H
         end.
  set (doy := doe - year_start Y) in *.
  assert (Hdoy : 0 <= doy <= 364 + Z.b2z (is_leap (Y + 1))) by (unfold doy; lia).
  assert (Hdoy' : 0 <= doy < 366) by (destruct (is_leap (Y + 1)); simpl in Hdoy; lia).
  pose proof (day_of_year_facts doy Hdoy') as Hd. unfold day_of_year_ok in Hd.
  destruct (month_day doy) as [m0 d0].
  intros Hc; inversion Hc; subst y m d; clear Hc.
  repeat (apply andb_prop in Hd; destruct Hd as [Hd ?]).
  repeat match goal with
         | H : (_ <=? _) = true |- _ => apply Z.leb_le in H
         end.
  unfold valid_date, date_to_unix_day, days_in_month, days_before_month.
  destruct (Z.leb_spec m0 2) as [Hm | Hm].
  - (* January and February belong to the next calendar year *)
    match goal with
    | H : (_ && _) = true |- _ =>
        apply andb_prop in H; destruct H as [Hb1 Hb2];
        apply Z.eqb_eq in Hb1, Hb2
    end.
    destruct (Z.eqb_spec m0 2) as [E2 | N2].
    + match goal with
      | H : (_ && _) = true |- _ =>
          apply andb_prop in H; destruct H as [Hd29 Hd28];
          apply Z.leb_le in Hd29; apply orb_prop in Hd28
      end.
      subst m0. split.
      * split; [lia|]. split; [lia|].
        change (days_in_month_of (is_leap (Y + 1)) 2)
          with (if is_leap (Y + 1) then 29 else 28).
        destruct (is_leap (Y + 1)); [lia|].
        simpl in Hdoy. destruct Hd28 as [Hd28 | Hd28];
          [apply Z.leb_le in Hd28 | apply Z.leb_le in Hd28]; lia.
      * destruct (is_leap (Y + 1)); lia.
    + match goal with
      | H : (_ && _) = true |- _ =>
          apply andb_prop in H; destruct H as [Hx Ht];
          apply andb_prop in Hx; destruct Hx as [_ Hf];
          apply Z.leb_le in Hf, Ht
      end.
      split; [|destruct (is_leap (Y + 1)); lia].
      split; [lia|]. split; [lia|]. destruct (is_leap (Y + 1)); assumption.
  - (* March to December *)
    rewrite Z.add_0_r.
    match goal with
    | H : (_ && _) = true |- _ =>
        apply andb_prop in H; destruct H as [Hb1 Hb2];
        apply Z.eqb_eq in Hb1, Hb2
    end.
    destruct (Z.eqb_spec m0 2) as [E2 | N2]; [lia|].
    match goal with
    | H : (_ && _) = true |- _ =>
        apply andb_prop in H; destruct H as [Hx Ht];
        apply andb_prop in Hx; destruct Hx as [_ Hf];
        apply Z.leb_le in Hf, Ht
    end.
    split; [|destruct (is_leap Y); simpl Z.b2z in *; lia].
    split; [lia|]. split; [lia|]. destruct (is_leap Y); assumption.
Qed.

(** The calendar repeats every 400 years, that is every 146097 days. *)
Lemma leaps_before_shift y e :
  leaps_before (y + e * 400) = leaps_before y + e * 97.
Proof.
  unfold leaps_before.
  replace (y + e * 400 - 1) with (y - 1 + (e * 100) * 4) at 1 by lia.
  replace (y + e * 400 - 1) with (y - 1 + (e * 4) * 100) at 1 by lia.
  replace (y + e * 400 - 1) with (y - 1 + e * 400) by lia.
  rewrite !Z.div_add by discriminate. lia.
Qed.

Lemma is_leap_shift y e : is_leap (y + e * 400) = is_leap y.
Proof.
  unfold is_leap.
  replace ((y + e * 400) mod 4) with (y mod 4).
  2:{ replace (y + e * 400) with (y + (e * 100) * 4) by lia.
      now rewrite Z.mod_add by discriminate. }
  replace ((y + e * 400) mod 100) with (y mod 100).
  2:{ replace (y + e * 400) with (y + (e * 4) * 100) by lia.
      now rewrite Z.mod_add by discriminate. }
  now rewrite Z.mod_add by discriminate.
Qed.

Lemma days_in_month_shift y e m :
  days_in_month (y + e * 400) m = days_in_month y m.
Proof. unfold days_in_month. now rewrite is_leap_shift. Qed.

Lemma date_to_unix_day_shift y e m d :
  date_to_unix_day (y + e * 400) m d = date_to_unix_day y m d + e * 146097.
Proof.
  unfold date_to_unix_day, days_before_year, days_before_month.
  rewrite leaps_before_shift, is_leap_shift. lia.
Qed.

Lemma days_in_month_le y m : days_in_month y m <= 31.
Proof.
  unfold days_in_month, days_in_month_of.
  repeat match goal with |- context [if ?c then _ else _] => destruct c end;
    lia.
Qed.

(** The fields of a day number form a date of the calendar, and that date
    is the day the number counts. *)
Lemma civil_from_days_correct z y m d :
  civil_from_days z = (y, m, d) ->
  valid_date y m d /\ date_to_unix_day y m d = z.
Proof.
  unfold civil_from_days.
  assert (Hdoe : 0 <= (z + 719468) mod 146097 < 146097)
    by (apply Z.mod_pos_bound; reflexivity).
  pose proof (Z.div_mod (z + 719468) 146097 ltac:(discriminate)) as Hz.
  destruct (civil_in_era ((z + 719468) mod 146097)) as [[y0 m0] d0] eqn:E.
  destruct (civil_in_era_correct _ _ _ _ Hdoe E) as [[Hm Hd] Hday].
  intros H; inversion H; subst; clear H.
  unfold valid_date.
  rewrite days_in_month_shift, date_to_unix_day_shift.
  repeat split; lia.
Qed.

Lemma Time_Hour_range t : 0 <= Time_Hour t < 24.
Proof. apply Z.mod_pos_bound. reflexivity. Qed.

(** The date and the hour of [t] name the hour [t] lies in. *)
Lemma Date_of_fields t y m d :
  Time_Date t = (y, m, d) ->
  valid_date y m d
  /\ Date y m d (Time_Hour t) 0 0 0 = Time_Truncate t Hour.
Proof.
  unfold Time_Date. intros H.
  apply civil_from_days_correct in H. destruct H as [Hv Hd].
  split; [exact Hv|].
  unfold Date, Time_Hour. rewrite Hd. unfold unix_day, Time_Truncate.
  change (Hour <=? 0) with false. cbv iota.
  change (unixToInternal * Second) with (17259888 * Hour).
  rewrite Z.mod_add by discriminate.
  change (24 * Hour) with (Hour * 24).
  rewrite <- Z.div_div by (try discriminate; reflexivity).
  pose proof (Z.div_mod t Hour ltac:(discriminate)).
  pose proof (Z.div_mod (t / Hour) 24 ltac:(discriminate)).
  change Hour with 3600000000000 in *.
  change Second with 1000000000.
  lia.
Qed.

End CalendarFacts.

(* ================================================================= *)
(** * Properties of the usage query iterator *)

Module UsageFacts.

Import GoTime Usage.

Lemma Hour_pos : 0 < Hour.
Proof. reflexivity. Qed.

Lemma Hour_div_mod t : t = Hour * (t / Hour) + t mod Hour /\ 0 <= t mod Hour < Hour.
Proof.
  split; [apply Z.div_mod; discriminate | apply Z.mod_pos_bound; reflexivity].
Qed.

(** Truncation to the hour drops the remainder modulo one hour. *)
Lemma Time_Truncate_Hour t : Time_Truncate t Hour = t - t mod Hour.
Proof.
  unfold Time_Truncate. change (Hour <=? 0) with false. cbv iota.
  change (unixToInternal * Second) with (17259888 * Hour).
  now rewrite Z.mod_add by discriminate.
Qed.

Lemma Time_Truncate_Hour_div t : Time_Truncate t Hour = Hour * (t / Hour).
Proof.
  rewrite Time_Truncate_Hour.
  pose proof (Hour_div_mod t). lia.
Qed.

Lemma Time_Truncate_on_the_hour t : on_the_hour (Time_Truncate t Hour).
Proof.
  unfold on_the_hour. rewrite Time_Truncate_Hour_div, Z.mul_comm.
  apply Z.mod_mul. discriminate.
Qed.

Lemma Time_Truncate_fixed t : on_the_hour t -> Time_Truncate t Hour = t.
Proof.
  unfold on_the_hour. intros H. rewrite Time_Truncate_Hour, H. lia.
Qed.

Lemma Time_Truncate_idem t :
  Time_Truncate (Time_Truncate t Hour) Hour = Time_Truncate t Hour.
Proof. apply Time_Truncate_fixed, Time_Truncate_on_the_hour. Qed.

Lemma Time_Truncate_mono t u :
  t <= u -> Time_Truncate t Hour <= Time_Truncate u Hour.
Proof.
  intros H. rewrite !Time_Truncate_Hour_div.
  apply Z.mul_le_mono_nonneg_l; [discriminate|].
  apply Z.div_le_mono; [reflexivity | exact H].
Qed.

(** A window of at least one hour truncates to whole hours, still at least
    one. *)
Lemma Duration_Truncate_Hour w :
  Hour <= w ->
  Duration_Truncate w Hour = Hour * (w / Hour)
  /\ Hour <= Duration_Truncate w Hour.
Proof.
  intros Hw. unfold Duration_Truncate. change (Hour <=? 0) with false.
  cbv iota. pose proof Hour_pos.
  rewrite Z.rem_mod_nonneg by lia.
  pose proof (Hour_div_mod w).
  assert (1 <= w / Hour) by (apply Z.div_le_lower_bound; lia).
  split; [lia | nia].
Qed.

Lemma Duration_Truncate_idem w :
  Hour <= w ->
  Duration_Truncate (Duration_Truncate w Hour) Hour = Duration_Truncate w Hour.
Proof.
  intros Hw. destruct (Duration_Truncate_Hour _ Hw) as [Heq _].
  unfold Duration_Truncate at 1. change (Hour <=? 0) with false. cbv iota.
  rewrite Heq, Z.mul_comm, Z.rem_mul by discriminate. lia.
Qed.

(** Instants on the hour are whole hours apart. *)
Lemma on_the_hour_gap t u :
  on_the_hour t -> on_the_hour u -> t < u -> t + Hour <= u.
Proof.
  unfold on_the_hour. intros Ht Hu Hlt.
  pose proof (Hour_div_mod t). pose proof (Hour_div_mod u).
  pose proof Hour_pos.
  assert (t / Hour < u / Hour) by nia.
  nia.
Qed.

Lemma on_the_hour_add t d :
  on_the_hour t -> d mod Hour = 0 -> on_the_hour (t + d).
Proof.
  unfold on_the_hour. intros Ht Hd.
  rewrite Z.add_mod, Ht, Hd by discriminate. reflexivity.
Qed.

(** *** Chains of intervals *)

Lemma chained_le rs : forall a b, chained a rs b -> a <= b.
Proof.
  induction rs as [|[s e] rs IH]; intros a b H; simpl in H.
  - lia.
  - destruct H as (-> & Hlt & Hc). apply IH in Hc. lia.
Qed.

Lemma chained_covered rs : forall a b,
  chained a rs b -> forall t, covered rs t <-> a <= t < b.
Proof.
  induction rs as [|[s e] rs IH]; intros a b H t; simpl in H.
  - subst b. split; [intros (s & e & [] & _) | lia].
  - destruct H as (-> & Hlt & Hc).
    pose proof (chained_le _ _ _ Hc) as Hle.
    specialize (IH _ _ Hc t). split.
    + intros (s' & e' & [Heq | Hin] & Ht).
      * inversion Heq; subst. lia.
      * assert (covered rs t) as Hcov by (exists s', e'; auto).
        apply IH in Hcov. lia.
    + intros Ht. destruct (Z_lt_le_dec t e) as [Hte | Hte].
      * exists a, e. split; [left; reflexivity | lia].
      * destruct (proj2 IH) as (s' & e' & Hin & Ht'); [lia|].
        exists s', e'. split; [right; exact Hin | exact Ht'].
Qed.

Lemma chained_starts rs : forall a b,
  chained a rs b -> Forall (fun r => a <= fst r) rs.
Proof.
  induction rs as [|[s e] rs IH]; intros a b H; simpl in H; constructor.
  - destruct H as (-> & _). simpl. lia.
  - destruct H as (-> & Hlt & Hc).
    apply IH in Hc. eapply Forall_impl; [|exact Hc].
    simpl. intros r Hr. lia.
Qed.

Lemma chained_non_overlapping rs : forall a b,
  chained a rs b -> non_overlapping rs.
Proof.
  unfold non_overlapping.
  induction rs as [|[s e] rs IH]; intros a b H; simpl in H; constructor.
  - destruct H as (_ & _ & Hc). exact (chained_starts _ _ _ Hc).
  - destruct H as (_ & _ & Hc). exact (IH _ _ Hc).
Qed.

Lemma chained_last rs : forall a b d,
  chained a rs b -> rs <> [] -> snd (last rs d) = b.
Proof.
  induction rs as [|[s e] rs IH]; intros a b d H Hne; [contradiction|].
  simpl in H. destruct H as (_ & _ & Hc).
  destruct rs as [|r rs'].
  - simpl in Hc |- *. exact Hc.
  - change (last ((s, e) :: r :: rs') d) with (last (r :: rs') d).
    apply (IH _ _ _ Hc). discriminate.
Qed.

(** *** The builder on whole hours *)

Lemma UsageQuery_on_the_hour account s e :
  on_the_hour s -> on_the_hour e -> s <= e ->
  UsageQuery account s e =
  Ok {| StartOffset := pathOffset account s;
        EndOffset := pathOffset account e |}.
Proof.
  intros Hs He Hle. unfold UsageQuery.
  rewrite (Time_Truncate_fixed _ Hs), (Time_Truncate_fixed _ He).
  unfold Time_Before. destruct (Z.ltb_spec e s); [lia | reflexivity].
Qed.

(** *** Construction *)

Lemma NewUsageQueryIterator_ok account startTime endTime window :
  Hour <= window ->
  Time_Truncate startTime Hour <= Time_Truncate endTime Hour ->
  NewUsageQueryIterator account startTime endTime window =
  Ok {| Account := account;
        Cursor := Time_Truncate startTime Hour;
        EndTime := Time_Truncate endTime Hour;
        Window := Duration_Truncate window Hour |}.
Proof.
  intros Hw Hle. unfold NewUsageQueryIterator.
  destruct (Z.ltb_spec window Hour); [lia|].
  rewrite UsageQuery_on_the_hour;
    auto using Time_Truncate_on_the_hour.
Qed.

Lemma NewUsageQueryIterator_iterator_ok account startTime endTime window i :
  NewUsageQueryIterator account startTime endTime window = Ok i ->
  iterator_ok i.
Proof.
  unfold NewUsageQueryIterator.
  destruct (Z.ltb_spec window Hour) as [|Hw]; [discriminate|].
  unfold UsageQuery. rewrite !Time_Truncate_idem. unfold Time_Before.
  destruct (Z.ltb_spec (Time_Truncate endTime Hour)
              (Time_Truncate startTime Hour)) as [|Hle]; [discriminate|].
  intros H; inversion H; subst.
  destruct (Duration_Truncate_Hour _ Hw) as [Heq Hge].
  constructor; simpl; auto using Time_Truncate_on_the_hour.
  rewrite Heq, Z.mul_comm. apply Z.mod_mul. discriminate.
Qed.

(** *** One step *)

Lemma Next_step i :
  iterator_ok i -> More i = true ->
  let stepEnd := Z.min (Cursor i + Window i) (EndTime i) in
  Next i =
  ({| Account := Account i; Cursor := stepEnd;
      EndTime := EndTime i; Window := Window i |},
   {| step_query :=
        Some {| StartOffset := pathOffset (Account i) (Cursor i);
                EndOffset := pathOffset (Account i) stepEnd |};
      step_start := Cursor i; step_end := stepEnd; step_err := None |})
  /\ Cursor i + Hour <= stepEnd
  /\ on_the_hour stepEnd.
Proof.
  intros [Hc He Hle Hw Hwh] Hmore stepEnd.
  unfold More, Time_Before in Hmore. apply Z.ltb_lt in Hmore.
  pose proof (on_the_hour_gap _ _ Hc He Hmore) as Hgap.
  assert (Hend : on_the_hour stepEnd).
  { unfold stepEnd. destruct (Z.min_spec (Cursor i + Window i) (EndTime i))
      as [[_ ->] | [_ ->]]; [apply on_the_hour_add|]; assumption. }
  assert (Hadv : Cursor i + Hour <= stepEnd) by (unfold stepEnd; lia).
  split; [|split; assumption].
  unfold Next, More, Time_Before, Time_Add.
  destruct (Z.ltb_spec (Cursor i) (EndTime i)); [|lia]. simpl.
  fold stepEnd. pose proof Hour_pos.
  rewrite UsageQuery_on_the_hour; auto; lia.
Qed.

(** *** The loop *)

(** A loop that ran to exhaustion does the same with more rounds. *)
Lemma drain_more_rounds f : forall i final sts f',
  drain f i = (final, sts) -> More final = false -> (f <= f')%nat ->
  drain f' i = (final, sts).
Proof.
  induction f as [|f IH]; intros i final sts f' H Hm Hle.
  - simpl in H. inversion H; subst.
    destruct f'; simpl; [reflexivity | now rewrite Hm].
  - destruct f' as [|f']; [lia|]. simpl in H |- *.
    destruct (More i); [|exact H].
    destruct (Next i) as [i' st].
    destruct (drain f i') as [i'' sts'] eqn:E.
    inversion H; subst.
    rewrite (IH _ _ _ f' E Hm); [reflexivity | lia].
Qed.

Lemma rounds_zero i : iterator_ok i -> rounds i = 0%nat -> More i = false.
Proof.
  intros [Hc He Hle _ _] Hr. unfold More, Time_Before.
  destruct (Z.ltb_spec (Cursor i) (EndTime i)) as [Hlt|]; [|reflexivity].
  pose proof (on_the_hour_gap _ _ Hc He Hlt).
  unfold rounds in Hr. pose proof Hour_pos.
  assert (1 <= (EndTime i - Cursor i) / Hour)
    by (apply Z.div_le_lower_bound; lia).
  lia.
Qed.

(** The loop stops within [rounds] rounds, at the end of the range, and
    the steps it took form a chain from the cursor to the end. *)
Lemma drain_spec f : forall i,
  iterator_ok i -> (rounds i <= f)%nat ->
  exists final sts,
    drain f i = (final, sts)
    /\ More final = false
    /\ chained (Cursor i) (ranges sts) (EndTime i)
    /\ Forall (step_ok i) sts.
Proof.
  induction f as [|f IH]; intros i Hok Hr.
  - assert (Hm : More i = false) by (apply rounds_zero; [assumption | lia]).
    exists i, []. simpl. repeat split; auto.
    unfold More, Time_Before in Hm. apply Z.ltb_ge in Hm.
    destruct Hok. lia.
  - simpl. destruct (More i) eqn:Hm.
    + destruct (Next_step i Hok Hm) as (Hn & Hadv & Hend).
      cbv zeta in Hn. rewrite Hn.
      set (stepEnd := Z.min (Cursor i + Window i) (EndTime i)) in *.
      set (i' := {| Account := Account i; Cursor := stepEnd;
                    EndTime := EndTime i; Window := Window i |}).
      assert (Hok' : iterator_ok i').
      { destruct Hok. constructor; simpl; auto. unfold stepEnd. lia. }
      assert (Hr' : (rounds i' <= f)%nat).
      { unfold rounds in Hr |- *. simpl. pose proof Hour_pos.
        assert ((EndTime i - stepEnd) / Hour
                <= (EndTime i - Cursor i + (-1) * Hour) / Hour)
          by (apply Z.div_le_mono; lia).
        rewrite Z.div_add in H0 by lia.
        destruct Hok.
        assert (0 <= (EndTime i - stepEnd) / Hour)
          by (apply Z.div_pos; unfold stepEnd; lia).
        lia. }
      destruct (IH i' Hok' Hr') as (final & sts & Hd & Hmf & Hch & Hall).
      rewrite Hd. eexists final, _. split; [reflexivity|].
      split; [exact Hmf|]. split.
      * simpl. split; [reflexivity|]. split; [pose proof Hour_pos; lia|].
        exact Hch.
      * constructor; [|exact Hall].
        unfold step_ok; simpl. auto.
    + exists i, []. repeat split; auto.
      unfold More, Time_Before in Hm. apply Z.ltb_ge in Hm.
      destruct Hok. simpl. lia.
Qed.

End UsageFacts.

(* ================================================================= *)
(** * The cases of the repository's tests, run on the model *)

Module UsageTests.

Import GoTime Usage.

Local Open Scope string_scope.
Local Open Scope Z_scope.

Example UsageQuery_1Hour :
  UsageQuery "test-account" (Date 2006 5 4 3 0 0 0) (Date 2006 5 4 4 0 0 0)
  = Ok {| StartOffset := "account=test-account/date=2006-05-04/hour=03/";
          EndOffset := "account=test-account/date=2006-05-04/hour=04/" |}.
Proof. vm_compute. reflexivity. Qed.

Example UsageQuery_1Week :
  UsageQuery "test-account" (Date 2006 5 4 3 0 0 0) (Date 2006 5 11 3 0 0 0)
  = Ok {| StartOffset := "account=test-account/date=2006-05-04/hour=03/";
          EndOffset := "account=test-account/date=2006-05-11/hour=03/" |}.
Proof. vm_compute. reflexivity. Qed.

Example UsageQuery_HourPrecision :
  UsageQuery "test-account" (Date 2006 5 4 3 2 1 0) (Date 2006 5 4 4 2 1 0)
  = Ok {| StartOffset := "account=test-account/date=2006-05-04/hour=03/";
          EndOffset := "account=test-account/date=2006-05-04/hour=04/" |}.
Proof. vm_compute. reflexivity. Qed.

Example UsageQuery_EndBeforeStart :
  UsageQuery "test-account" (Date 2006 5 4 4 0 0 0) (Date 2006 5 4 3 0 0 0)
  = Err "endTime must occur after startTime".
Proof. vm_compute. reflexivity. Qed.

Example NewUsageQueryIterator_30DayWindow :
  NewUsageQueryIterator "test-account" (Date 2006 5 4 3 0 0 0)
    (Date 2006 5 4 4 0 0 0) (30 * 24 * Hour)
  = Ok {| Account := "test-account"; Cursor := Date 2006 5 4 3 0 0 0;
          EndTime := Date 2006 5 4 4 0 0 0; Window := 30 * 24 * Hour |}.
Proof. vm_compute. reflexivity. Qed.

Example NewUsageQueryIterator_1HourPrecision :
  NewUsageQueryIterator "test-account" (Date 2006 5 4 3 2 1 0)
    (Date 2006 5 4 4 2 1 0) (Hour + Minute)
  = Ok {| Account := "test-account"; Cursor := Date 2006 5 4 3 0 0 0;
          EndTime := Date 2006 5 4 4 0 0 0; Window := Hour |}.
Proof. vm_compute. reflexivity. Qed.

Example Iterator_3HourRange1HourWindow :
  outline (NewUsageQueryIterator "test-account" (Date 2006 5 4 3 0 0 0)
             (Date 2006 5 4 6 0 0 0) Hour)
  = [ (Date 2006 5 4 3 0 0 0, Date 2006 5 4 4 0 0 0,
       Some ("account=test-account/date=2006-05-04/hour=03/",
             "account=test-account/date=2006-05-04/hour=04/"));
      (Date 2006 5 4 4 0 0 0, Date 2006 5 4 5 0 0 0,
       Some ("account=test-account/date=2006-05-04/hour=04/",
             "account=test-account/date=2006-05-04/hour=05/"));
      (Date 2006 5 4 5 0 0 0, Date 2006 5 4 6 0 0 0,
       Some ("account=test-account/date=2006-05-04/hour=05/",
             "account=test-account/date=2006-05-04/hour=06/")) ].
Proof. vm_compute. reflexivity. Qed.

Example Iterator_3HourRange2HourWindow :
  outline (NewUsageQueryIterator "test-account" (Date 2006 5 4 3 0 0 0)
             (Date 2006 5 4 6 0 0 0) (2 * Hour))
  = [ (Date 2006 5 4 3 0 0 0, Date 2006 5 4 5 0 0 0,
       Some ("account=test-account/date=2006-05-04/hour=03/",
             "account=test-account/date=2006-05-04/hour=05/"));
      (Date 2006 5 4 5 0 0 0, Date 2006 5 4 6 0 0 0,
       Some ("account=test-account/date=2006-05-04/hour=05/",
             "account=test-account/date=2006-05-04/hour=06/")) ].
Proof. vm_compute. reflexivity. Qed.

Example Iterator_3HourRange4HourWindow :
  outline (NewUsageQueryIterator "test-account" (Date 2006 5 4 3 0 0 0)
             (Date 2006 5 4 6 0 0 0) (4 * Hour))
  = [ (Date 2006 5 4 3 0 0 0, Date 2006 5 4 6 0 0 0,
       Some ("account=test-account/date=2006-05-04/hour=03/",
             "account=test-account/date=2006-05-04/hour=06/")) ].
Proof. vm_compute. reflexivity. Qed.

Example Iterator_3DayRange1DayWindow :
  outline (NewUsageQueryIterator "test-account" (Date 2006 5 4 3 0 0 0)
             (Date 2006 5 7 3 0 0 0) (24 * Hour))
  = [ (Date 2006 5 4 3 0 0 0, Date 2006 5 5 3 0 0 0,
       Some ("account=test-account/date=2006-05-04/hour=03/",
             "account=test-account/date=2006-05-05/hour=03/"));
      (Date 2006 5 5 3 0 0 0, Date 2006 5 6 3 0 0 0,
       Some ("account=test-account/date=2006-05-05/hour=03/",
             "account=test-account/date=2006-05-06/hour=03/"));
      (Date 2006 5 6 3 0 0 0, Date 2006 5 7 3 0 0 0,
       Some ("account=test-account/date=2006-05-06/hour=03/",
             "account=test-account/date=2006-05-07/hour=03/")) ].
Proof. vm_compute. reflexivity. Qed.

End UsageTests.

(* ================================================================= *)
(** * What the usage query iterator guarantees *)

Module UsageSpec.

Import GoTime Usage UsageFacts.

Local Open Scope string_scope.
Local Open Scope Z_scope.

Lemma last_ranges sts : forall d,
  snd (last (ranges sts) (step_start d, step_end d)) = step_end (last sts d).
Proof.
  induction sts as [|st sts IH]; intros d; [reflexivity|].
  destruct sts as [|st' sts']; [reflexivity|].
  change (last (st :: st' :: sts') d) with (last (st' :: sts') d).
  rewrite <- IH. reflexivity.
Qed.

(** C1: for a window of at least one hour and a start not after the end,
    construction succeeds and the loop over [More] and [Next] ends; its
    sub-ranges are non-empty half-open intervals, each starting where the one
    before ends, none reaching into a later one; together they cover exactly
    the instants from the truncated start up to the truncated end; the last
    one ends at the truncated end; and every step ends at the cursor plus the
    window or at the end of the range, whichever comes first. *)
Theorem iterator_partition account startTime endTime window :
  Hour <= window -> startTime <= endTime ->
  exists i final sts,
    NewUsageQueryIterator account startTime endTime window = Ok i
    /\ iterate i = (final, sts)
    /\ More final = false
    /\ (forall fuel, (rounds i <= fuel)%nat -> drain fuel i = (final, sts))
    /\ chained (Time_Truncate startTime Hour) (ranges sts)
         (Time_Truncate endTime Hour)
    /\ non_overlapping (ranges sts)
    /\ (forall t, covered (ranges sts) t
                  <-> Time_Truncate startTime Hour <= t
                      < Time_Truncate endTime Hour)
    /\ (forall d, sts <> [] ->
                  step_end (last sts d) = Time_Truncate endTime Hour)
    /\ Forall (step_ok i) sts.
Proof.
  intros Hw Hle.
  pose proof (Time_Truncate_mono _ _ Hle) as Hle'.
  pose proof (NewUsageQueryIterator_ok account _ _ _ Hw Hle') as Hnew.
  set (i := {| Account := account;
               Cursor := Time_Truncate startTime Hour;
               EndTime := Time_Truncate endTime Hour;
               Window := Duration_Truncate window Hour |}) in *.
  pose proof (NewUsageQueryIterator_iterator_ok _ _ _ _ _ Hnew) as Hok.
  destruct (drain_spec (rounds i) i Hok (le_n _))
    as (final & sts & Hd & Hm & Hch & Hall).
  exists i, final, sts.
  split; [exact Hnew|]. split; [exact Hd|]. split; [exact Hm|].
  split; [intros fuel Hf; exact (drain_more_rounds _ _ _ _ _ Hd Hm Hf)|].
  split; [exact Hch|].
  split; [exact (chained_non_overlapping _ _ _ Hch)|].
  split; [exact (chained_covered _ _ _ Hch)|].
  split; [|exact Hall].
  intros d Hne. rewrite <- last_ranges.
  apply (chained_last _ _ _ _ Hch).
  destruct sts; [contradiction | discriminate].
Qed.

(** C3: a window below one hour makes construction fail with the error
    "window must be 1h or greater", whatever the account and the range, so
    that no iterator comes out; a window of 59 minutes is such a window. *)
Theorem window_below_one_hour :
  (forall account startTime endTime window,
      window < Hour ->
      NewUsageQueryIterator account startTime endTime window
      = Err "window must be 1h or greater")
  /\ NewUsageQueryIterator "test-account" (Date 2006 5 4 3 0 0 0)
       (Date 2006 5 4 4 0 0 0) (59 * Minute)
     = Err "window must be 1h or greater".
Proof.
  split; [|reflexivity].
  intros account startTime endTime window Hw.
  unfold NewUsageQueryIterator.
  destruct (Z.ltb_spec window Hour); [reflexivity | lia].
Qed.

(** C4: with a window of at least one hour, an end whose hour precedes the
    hour of the start makes both construction and the single-shot builder
    fail with the error "endTime must occur after startTime"; an end equal
    to the start gives an iterator for which [More] is false from the
    outset, so that the loop takes no step. *)
Theorem range_check account startTime endTime window :
  Hour <= window ->
  (Time_Truncate endTime Hour < Time_Truncate startTime Hour ->
   NewUsageQueryIterator account startTime endTime window
   = Err "endTime must occur after startTime"
   /\ UsageQuery account startTime endTime
      = Err "endTime must occur after startTime")
  /\ (endTime = startTime ->
      exists i,
        NewUsageQueryIterator account startTime endTime window = Ok i
        /\ More i = false
        /\ forall fuel, drain fuel i = (i, [])).
Proof.
  intros Hw. split.
  - intros Hlt.
    assert (Hq : forall s e,
               Time_Truncate e Hour < Time_Truncate s Hour ->
               UsageQuery account s e = Err errInvalidRange).
    { intros s e H. unfold UsageQuery, Time_Before.
      destruct (Z.ltb_spec (Time_Truncate e Hour) (Time_Truncate s Hour));
        [reflexivity | lia]. }
    split; [|exact (Hq _ _ Hlt)].
    unfold NewUsageQueryIterator.
    destruct (Z.ltb_spec window Hour); [lia|].
    rewrite Hq; [reflexivity|]. now rewrite !Time_Truncate_idem.
  - intros ->.
    rewrite (NewUsageQueryIterator_ok account startTime startTime window Hw)
      by lia.
    eexists. split; [reflexivity|].
    assert (Hm : More {| Account := account;
                         Cursor := Time_Truncate startTime Hour;
                         EndTime := Time_Truncate startTime Hour;
                         Window := Duration_Truncate window Hour |} = false).
    { unfold More, Time_Before. simpl. apply Z.ltb_irrefl. }
    split; [exact Hm|].
    intros [|fuel]; simpl; [reflexivity | now rewrite Hm].
Qed.

(** C5 (amended): a start [t] and the start one minute and thirty seconds
    later give the same construction result, hence the same iterator state
    and the same steps, whenever both lie in the same hour, that is when [t]
    is less than 58 minutes 30 seconds past the hour, in particular when [t]
    is on the hour. Start, end and window are each truncated down to whole
    hours before use: construction from the truncated values gives the same
    result, the iterator holds the truncated values, and a window of one hour
    and one minute becomes one hour. *)
Theorem sub_hour_ignored account t endTime window :
  (t mod Hour + (Minute + 30 * Second) < Hour ->
   NewUsageQueryIterator account (t + (Minute + 30 * Second)) endTime window
   = NewUsageQueryIterator account t endTime window
   /\ forall i i',
       NewUsageQueryIterator account (t + (Minute + 30 * Second)) endTime
         window = Ok i ->
       NewUsageQueryIterator account t endTime window = Ok i' ->
       i = i' /\ iterate i = iterate i')
  /\ NewUsageQueryIterator account t endTime window
     = NewUsageQueryIterator account (Time_Truncate t Hour)
         (Time_Truncate endTime Hour)
         (if Hour <=? window then Duration_Truncate window Hour else window)
  /\ (forall i,
        NewUsageQueryIterator account t endTime window = Ok i ->
        Cursor i = t - t mod Hour
        /\ EndTime i = endTime - endTime mod Hour
        /\ Window i = window - window mod Hour)
  /\ Duration_Truncate (Hour + Minute) Hour = Hour.
Proof.
  split; [|split; [|split; [|reflexivity]]].
  - intros Hsame.
    assert (Ht : Time_Truncate (t + (Minute + 30 * Second)) Hour
                 = Time_Truncate t Hour).
    { rewrite !Time_Truncate_Hour_div. f_equal.
      destruct (Hour_div_mod t) as [Hd Hb].
      symmetry. apply (Z.div_unique (t + (Minute + 30 * Second)) Hour
                         (t / Hour) (t mod Hour + (Minute + 30 * Second))).
      - left. change (Minute + 30 * Second) with 90000000000 in *. lia.
      - lia. }
    assert (Heq : NewUsageQueryIterator account (t + (Minute + 30 * Second))
                    endTime window
                  = NewUsageQueryIterator account t endTime window).
    { unfold NewUsageQueryIterator. now rewrite Ht. }
    split; [exact Heq|].
    intros i i' H H'. rewrite Heq, H' in H. inversion H; subst. auto.
  - unfold NewUsageQueryIterator.
    destruct (Z.ltb_spec window Hour) as [Hlt | Hge].
    + destruct (Z.leb_spec Hour window); [lia|].
      destruct (Z.ltb_spec window Hour); [reflexivity | lia].
    + destruct (Z.leb_spec Hour window); [|lia].
      destruct (Duration_Truncate_Hour _ Hge) as [Heq Hge'].
      destruct (Z.ltb_spec (Duration_Truncate window Hour) Hour); [lia|].
      rewrite !Time_Truncate_idem.
      now rewrite (Duration_Truncate_idem _ Hge).
  - intros i H. unfold NewUsageQueryIterator in H.
    destruct (Z.ltb_spec window Hour) as [|Hge]; [discriminate|].
    destruct (UsageQuery _ _ _); [|discriminate].
    inversion H; subst; simpl.
    rewrite !Time_Truncate_Hour.
    destruct (Duration_Truncate_Hour _ Hge) as [Heq _]. rewrite Heq.
    destruct (Hour_div_mod window). lia.
Qed.

(** C2: the path offset of an instant is the account, the date and the
    hour of the instant in UTC, laid out as
    account=ACCOUNT/date=YYYY-MM-DD/hour=HH/ with a four-digit year (for a
    year from 0 to 9999), a two-digit month, a two-digit day and a two-digit
    zero-padded hour; date and hour are the calendar fields of the hour the
    instant lies in. For the range from 2006-05-04T23:00Z to
    2006-05-05T01:00Z the single-shot builder gives the start offset of
    2006-05-04, hour 23, and the end offset of the next day, 2006-05-05,
    hour 01. *)
Theorem path_offset_format :
  (forall account t,
      exists y m d h,
        Time_Date t = (y, m, d) /\ Time_Hour t = h
        /\ valid_date y m d /\ 0 <= h <= 23
        /\ Date y m d h 0 0 0 = Time_Truncate t Hour
        /\ (0 <= y <= 9999 ->
            pathOffset account t =
            "account=" ++ account ++ "/date=" ++ dec4 y ++ "-" ++ dec2 m
            ++ "-" ++ dec2 d ++ "/hour=" ++ dec2 h ++ "/"))
  /\ UsageQuery "test-account" (Date 2006 5 4 23 0 0 0) (Date 2006 5 5 1 0 0 0)
     = Ok {| StartOffset := "account=test-account/date=2006-05-04/hour=23/";
             EndOffset := "account=test-account/date=2006-05-05/hour=01/" |}.
Proof.
  split; [|vm_compute; reflexivity].
  intros account t.
  destruct (Time_Date t) as [[y m] d] eqn:E.
  exists y, m, d, (Time_Hour t).
  destruct (CalendarFacts.Date_of_fields _ _ _ _ E) as [Hv Hd].
  pose proof (CalendarFacts.Time_Hour_range t) as Hh.
  split; [reflexivity|]. split; [reflexivity|]. split; [exact Hv|].
  split; [lia|]. split; [exact Hd|].
  intros Hy. unfold pathOffset, formatDate. rewrite E.
  destruct Hv as [Hm Hday].
  pose proof (CalendarFacts.days_in_month_le y m).
  rewrite CalendarFacts.four_digits by lia.
  rewrite !CalendarFacts.two_digits by lia.
  reflexivity.
Qed.

(** The range of three hours and the window of two hours of the tests: two
    steps, from hour 03 to hour 05 and from hour 05 to hour 06. *)
Lemma iterator_partition_witness :
  exists i final sts,
    NewUsageQueryIterator "test-account" (Date 2006 5 4 3 0 0 0)
      (Date 2006 5 4 6 0 0 0) (2 * Hour) = Ok i
    /\ iterate i = (final, sts)
    /\ More final = false
    /\ (forall fuel, (rounds i <= fuel)%nat -> drain fuel i = (final, sts))
    /\ chained (Time_Truncate (Date 2006 5 4 3 0 0 0) Hour) (ranges sts)
         (Time_Truncate (Date 2006 5 4 6 0 0 0) Hour)
    /\ non_overlapping (ranges sts)
    /\ (forall t, covered (ranges sts) t
                  <-> Time_Truncate (Date 2006 5 4 3 0 0 0) Hour <= t
                      < Time_Truncate (Date 2006 5 4 6 0 0 0) Hour)
    /\ (forall d, sts <> [] ->
                  step_end (last sts d)
                  = Time_Truncate (Date 2006 5 4 6 0 0 0) Hour)
    /\ Forall (step_ok i) sts.
Proof.
  apply iterator_partition; vm_compute; discriminate.
Defined.

(** A window of 59 minutes is refused even when the range is the wrong way
    round. *)
Lemma window_below_one_hour_witness :
  NewUsageQueryIterator "test-account" (Date 2006 5 4 4 0 0 0)
    (Date 2006 5 4 3 0 0 0) (59 * Minute)
  = Err "window must be 1h or greater".
Proof.
  apply (proj1 window_below_one_hour). reflexivity.
Defined.

(** The end one hour before the start, as in the tests. *)
Lemma range_check_witness :
  NewUsageQueryIterator "test-account" (Date 2006 5 4 4 0 0 0)
    (Date 2006 5 4 3 0 0 0) Hour
  = Err "endTime must occur after startTime"
  /\ UsageQuery "test-account" (Date 2006 5 4 4 0 0 0) (Date 2006 5 4 3 0 0 0)
     = Err "endTime must occur after startTime".
Proof.
  apply (range_check "test-account" (Date 2006 5 4 4 0 0 0)
           (Date 2006 5 4 3 0 0 0) Hour).
  - vm_compute; discriminate.
  - reflexivity.
Defined.

(** One minute and thirty seconds after 03:59:00 is in the next hour: the
    two iterators start at different hours. *)
Lemma sub_hour_not_ignored_across_hours :
  NewUsageQueryIterator "test-account"
    (Date 2006 5 4 3 59 0 0 + (Minute + 30 * Second)) (Date 2006 5 4 6 0 0 0)
    Hour
  = Ok {| Account := "test-account"; Cursor := Date 2006 5 4 4 0 0 0;
          EndTime := Date 2006 5 4 6 0 0 0; Window := Hour |}
  /\ NewUsageQueryIterator "test-account" (Date 2006 5 4 3 59 0 0)
       (Date 2006 5 4 6 0 0 0) Hour
     = Ok {| Account := "test-account"; Cursor := Date 2006 5 4 3 0 0 0;
             EndTime := Date 2006 5 4 6 0 0 0; Window := Hour |}
  /\ NewUsageQueryIterator "test-account"
       (Date 2006 5 4 3 59 0 0 + (Minute + 30 * Second))
       (Date 2006 5 4 6 0 0 0) Hour
     <> NewUsageQueryIterator "test-account" (Date 2006 5 4 3 59 0 0)
          (Date 2006 5 4 6 0 0 0) Hour.
Proof.
  split; [vm_compute; reflexivity|]. split; [vm_compute; reflexivity|].
  vm_compute. discriminate.
Qed.

(** 03:02:01 and one minute and thirty seconds later, 03:03:31. *)
Lemma sub_hour_ignored_witness :
  NewUsageQueryIterator "test-account"
    (Date 2006 5 4 3 2 1 0 + (Minute + 30 * Second)) (Date 2006 5 4 4 2 1 0)
    (Hour + Minute)
  = NewUsageQueryIterator "test-account" (Date 2006 5 4 3 2 1 0)
      (Date 2006 5 4 4 2 1 0) (Hour + Minute).
Proof.
  apply (proj1 (sub_hour_ignored "test-account" (Date 2006 5 4 3 2 1 0)
                  (Date 2006 5 4 4 2 1 0) (Hour + Minute))).
  reflexivity.
Defined.

(** The start of the cross-midnight range. *)
Lemma path_offset_format_witness :
  pathOffset "test-account" (Date 2006 5 4 23 0 0 0)
  = "account=test-account/date=2006-05-04/hour=23/".
Proof.
  destruct (proj1 path_offset_format "test-account" (Date 2006 5 4 23 0 0 0))
    as (y & m & d & h & Hd & Hh & _ & _ & _ & Hfmt).
  vm_compute in Hd, Hh. inversion Hd; subst.
  rewrite Hfmt; [reflexivity | lia].
Defined.

Lemma length_append (s1 s2 : string) :
  String.length (s1 ++ s2) = (String.length s1 + String.length s2)%nat.
Proof.
  induction s1 as [|c s1 IH]; simpl; [reflexivity | now rewrite IH].
Qed.

(** The first hour of the year 10000 is an instant on the hour whose year
    takes five digits: its path offset is not of the described layout. *)
Lemma path_offset_year_10000 :
  Time_Truncate (Date 10000 1 1 0 0 0 0) Hour = Date 10000 1 1 0 0 0 0
  /\ Time_Date (Date 10000 1 1 0 0 0 0) = (10000, 1, 1)
  /\ pathOffset "test-account" (Date 10000 1 1 0 0 0 0)
     = "account=test-account/date=10000-01-01/hour=00/"
  /\ ~ described_layout "test-account"
        (pathOffset "test-account" (Date 10000 1 1 0 0 0 0)).
Proof.
  split; [vm_compute; reflexivity|].
  split; [vm_compute; reflexivity|].
  assert (Hp : pathOffset "test-account" (Date 10000 1 1 0 0 0 0)
               = "account=test-account/date=10000-01-01/hour=00/")
    by (vm_compute; reflexivity).
  split; [exact Hp|].
  rewrite Hp. intros (y4 & m2 & d2 & h2 & Hy & Hm & Hd & Hh & Heq).
  apply (f_equal String.length) in Heq.
  rewrite !length_append, Hy, Hm, Hd, Hh in Heq.
  simpl in Heq. discriminate.
Qed.

End UsageSpec.

(* ================================================================= *)
(** * The robot delete command under ambiguous names *)

Module RobotSpec.

Import Robot.

Local Open Scope string_scope.

Section Run.

Variable API : Type.
Variable ListRobots : API -> N -> API * result (list Robot).
Variable Delete : API -> UUID -> API * option error.

(** With [Force] the loop never fails and ends on the last match. *)
Lemma scan_force c account rs : forall id d,
  Force c = true ->
  scan c account rs id =
  Ok (match matches (cmd_Name c) rs with
      | [] => id
      | _ :: _ => Some (ID (last (matches (cmd_Name c) rs) d))
      end).
Proof.
  induction rs as [|r rs IH]; intros id d Hf; [reflexivity|].
  cbn [scan matches filter]. fold (matches (cmd_Name c) rs).
  destruct (String.eqb (Name r) (cmd_Name c)).
  - rewrite Hf, andb_false_r. rewrite (IH _ d Hf).
    destruct (matches (cmd_Name c) rs) as [|r' ms]; reflexivity.
  - apply IH; assumption.
Qed.

(** Without [Force] a second match ends the loop with the error. *)
Lemma scan_no_force c account rs : forall id,
  Force c = false ->
  (2 <= length (matches (cmd_Name c) rs)
        + match id with Some _ => 1 | None => 0 end)%nat ->
  scan c account rs id
  = Err (errMultipleRobot (cmd_Name c) (acc_Name account)).
Proof.
  induction rs as [|r rs IH]; intros id Hf Hlen.
  - simpl in Hlen. destruct id; lia.
  - cbn [scan matches filter] in Hlen |- *.
    fold (matches (cmd_Name c) rs) in Hlen.
    destruct (String.eqb (Name r) (cmd_Name c)).
    + rewrite Hf. destruct id as [u|]; [reflexivity|].
      simpl. apply IH; [assumption|]. simpl in Hlen. lia.
    + apply IH; assumption.
Qed.

(** C10: when the listing holds several robots with the requested name,
    [Run] with [Force] sends exactly one delete request, for the robot
    that comes last among the matches in the order of the listing, and
    returns what that request returned, not the ambiguity error; without
    [Force] it returns the error "found multiple robots with name NAME in
    ACCOUNT" and sends no delete request. *)
Theorem force_deletes_last_match c account w rs a1 :
  ListRobots (api w) (acc_ID account) = (a1, Ok rs) ->
  (1 < length (matches (cmd_Name c) rs))%nat ->
  (Force c = true ->
   forall d,
     let id := ID (last (matches (cmd_Name c) rs) d) in
     deletes (fst (Run API ListRobots Delete c account w))
     = (deletes w ++ [id])%list
     /\ api (fst (Run API ListRobots Delete c account w))
        = fst (Delete a1 id)
     /\ snd (Run API ListRobots Delete c account w) = snd (Delete a1 id))
  /\ (Force c = false ->
      Run API ListRobots Delete c account w
      = ({| api := a1; deletes := deletes w; printed := printed w |},
         Some ("found multiple robots with name " ++ cmd_Name c ++ " in "
               ++ acc_Name account))).
Proof.
  intros Hl Hlen.
  assert (Hne : (length rs =? 0)%nat = false).
  { destruct rs; [simpl in Hlen; lia | reflexivity]. }
  split.
  - intros Hf d id. unfold Run. rewrite Hl, Hne.
    rewrite (scan_force _ _ _ _ d Hf).
    destruct (matches (cmd_Name c) rs) as [|r ms] eqn:Em;
      [simpl in Hlen; lia|].
    fold id. destruct (Delete a1 id) as [a2 [err|]]; simpl; auto.
  - intros Hf. unfold Run. rewrite Hl, Hne.
    rewrite scan_no_force; [reflexivity | assumption | lia].
Qed.

End Run.

(** Two robots named [ci] in a listing of three: with [Force] the one
    listed last, with ID 3, is the one deleted. *)
Lemma force_deletes_last_match_witness :
  let w := {| api := three_robots; deletes := []; printed := [] |} in
  let c := {| cmd_Name := "ci"; Force := true |} in
  let account := {| acc_ID := 7%N; acc_Name := "acme" |} in
  deletes (fst (Run Directory Directory_ListRobots Directory_Delete
                  c account w)) = [3%N]
  /\ api (fst (Run Directory Directory_ListRobots Directory_Delete
                 c account w))
     = [ {| ID := 1%N; Name := "ci" |}; {| ID := 2%N; Name := "deploy" |} ]
  /\ snd (Run Directory Directory_ListRobots Directory_Delete c account w)
     = None.
Proof.
  intros w c account.
  exact (proj1 (force_deletes_last_match Directory Directory_ListRobots
                  Directory_Delete c account w three_robots three_robots
                  eq_refl (le_n 2))
           eq_refl {| ID := 0%N; Name := "" |}).
Defined.

End RobotSpec.

(* ================================================================= *)
(** * The encoder's output as JSON, for any number of records *)

Module EncoderMore.

Import Json JsonText EncoderRuns EncoderFacts JsonTextFacts.

(** *** Scanning the stream of an array *)

(** Behind a text that scans to the end, a comma or a newline closes what
    is open and leaves the scanner between two tokens. *)
Lemma step_after_text m o :
  finish m = Some o ->
  step m b_comma = Some (LBoundary, o ++ [TComma])
  /\ step m b_newline = Some (LBoundary, o).
Proof.
  destruct m as [|rest tok|acc|acc|acc k|ns acc]; simpl; try discriminate.
  - intros H; inversion H; subst. split; reflexivity.
  - destruct ns; simpl; try discriminate;
      intros H; inversion H; subst; split; reflexivity.
Qed.

Lemma lex_inv b tb :
  lex b = Some tb ->
  exists m out o,
    run LBoundary b = Some (m, out) /\ finish m = Some o /\ tb = out ++ o.
Proof.
  unfold lex.
  destruct (run LBoundary b) as [[m out]|]; [|discriminate].
  destruct (finish m) as [o|] eqn:E; [|discriminate].
  intros H; inversion H; subst. now exists m, out, o.
Qed.

(** The items behind an open text, and the closing sequence. *)
Lemma run_items bs : forall tbs m o,
  Forall2 (fun b tb => lex b = Some tb) bs tbs ->
  finish m = Some o ->
  run m (items true bs ++ closing)
  = Some (LBoundary, o ++ tokens_items true tbs ++ [TRBracket]).
Proof.
  induction bs as [|b bs IH]; intros tbs m o Hall Hm;
    inversion Hall as [|? tb ? tbs' Hb Hrest]; subst.
  - destruct (step_after_text _ _ Hm) as [_ Hnl].
    cbn [items app closing run]. rewrite Hnl. reflexivity.
  - destruct (step_after_text _ _ Hm) as [Hc _].
    destruct (lex_inv _ _ Hb) as (mb & out & ob & Hrun & Hfin & ->).
    cbn [items]. rewrite <- !app_assoc.
    cbn [app run]. rewrite Hc.
    change (step LBoundary b_newline) with (Some (LBoundary, @nil token)).
    cbv iota.
    rewrite run_app, Hrun, (IH _ _ _ Hrest Hfin).
    cbn [tokens_items]. f_equal. f_equal.
    rewrite <- !app_assoc. reflexivity.
Qed.

(** The tokens of the stream are the brackets around the tokens of the
    records, with a comma between two records. *)
Lemma lex_array_text bs tbs :
  Forall2 (fun b tb => lex b = Some tb) bs tbs ->
  lex (array_text bs)
  = Some (TLBracket :: tokens_items false tbs ++ [TRBracket]).
Proof.
  intros Hall. unfold lex, array_text.
  destruct Hall as [|b tb bs tbs Hb Hrest].
  - reflexivity.
  - destruct (lex_inv _ _ Hb) as (mb & out & ob & Hrun & Hfin & ->).
    cbn [items]. rewrite <- !app_assoc.
    cbn [app run].
    change (step LBoundary b_lbracket) with (Some (LBoundary, [TLBracket])).
    cbv iota.
    change (step LBoundary b_newline) with (Some (LBoundary, @nil token)).
    cbv iota.
    rewrite run_app, Hrun, (run_items _ _ _ _ Hrest Hfin).
    cbn [finish tokens_items app]. f_equal.
    rewrite app_nil_r, <- !app_assoc. reflexivity.
Qed.

(** *** Reading the tokens of an array *)

(** A value never starts with a closing bracket. *)
Lemma parse_value_first n ts v r :
  parse_value n ts = Some (v, r) ->
  exists tok ts', ts = tok :: ts' /\ tok <> TRBracket.
Proof.
  destruct n; [discriminate|]. rewrite parse_value_S.
  destruct ts as [|tok ts']; [discriminate|].
  intros H. exists tok, ts'. split; [reflexivity|].
  intros ->. discriminate.
Qed.

(** The tokens of whole values, with commas between them and a closing
    bracket behind, read as the list of the values. *)
Lemma parse_elems_items tbs vs :
  Forall2 (fun tb v => exists n, parse_value n tb = Some (v, [])) tbs vs ->
  forall tb v n0,
    parse_value n0 tb = Some (v, []) ->
    exists n, forall tail,
      parse_elems n (tb ++ tokens_items true tbs ++ TRBracket :: tail)
      = Some (v :: vs, tail).
Proof.
  induction 1 as [|tb2 v2 tbs vs [n2 H2] Hrest IH]; intros tb v n0 H0.
  - exists (S n0). intros tail. rewrite parse_elems_S.
    cbn [tokens_items app].
    rewrite (proj1 (parse_app n0) _ _ _ (TRBracket :: tail) H0).
    reflexivity.
  - destruct (IH tb2 v2 n2 H2) as [n Hn].
    exists (S (Nat.max n0 n)). intros tail. rewrite parse_elems_S.
    cbn [tokens_items app]. rewrite <- !app_assoc.
    pose proof (proj1 (parse_app n0) _ _ _
                  (TComma :: tb2 ++ tokens_items true tbs ++ TRBracket :: tail)
                  H0) as Hv.
    apply (parse_value_le _ (Nat.max n0 n)) in Hv; [|apply Nat.le_max_l].
    cbn [app] in Hv |- *. rewrite Hv.
    rewrite (parse_elems_le n (Nat.max n0 n) _ _ (Nat.le_max_r _ _) (Hn tail)).
    reflexivity.
Qed.

(** The tokens of an array of whole values read as the array. *)
Lemma parse_doc_array tbs vs :
  Forall2 (fun tb v => parse_doc tb = Some v) tbs vs ->
  parse_doc (TLBracket :: tokens_items false tbs ++ [TRBracket])
  = Some (JArr vs).
Proof.
  intros Hall.
  assert (Hall' : Forall2 (fun tb v => exists n, parse_value n tb = Some (v, []))
                    tbs vs).
  { eapply Forall2_impl; [|exact Hall]. intros tb v H. unfold parse_doc in H.
    exists (depth_for tb).
    destruct (parse_value (depth_for tb) tb) as [[v' r]|]; [|discriminate].
    destruct r; [|discriminate]. now inversion H. }
  clear Hall. unfold parse_doc.
  destruct Hall' as [|tb v tbs vs [n0 H0] Hrest]; [reflexivity|].
  destruct (parse_elems_items _ _ Hrest _ _ _ H0) as [n Hn].
  specialize (Hn []).
  destruct (parse_value_first _ _ _ _ H0) as (tok & ts' & -> & Hne).
  cbn [tokens_items app] in Hn |- *. rewrite <- app_assoc.
  rewrite (depth_for_enough (S n) _ (JArr (v :: vs)) []); [reflexivity|].
  rewrite parse_value_S.
  destruct tok; try contradiction; cbv iota; rewrite Hn; reflexivity.
Qed.

(** The stream of records that are JSON texts is the JSON array of their
    values. *)
Lemma json_parse_array_text bs vs :
  Forall2 (fun b v => json_parse b = Some v) bs vs ->
  json_parse (array_text bs) = Some (JArr vs).
Proof.
  intros Hall.
  assert (Htok : exists tbs,
             Forall2 (fun b tb => lex b = Some tb) bs tbs
             /\ Forall2 (fun tb v => parse_doc tb = Some v) tbs vs).
  { induction Hall as [|b v bs vs Hb Hrest (tbs & H1 & H2)].
    - exists []. split; constructor.
    - unfold json_parse in Hb. destruct (lex b) as [tb|] eqn:E; [|discriminate].
      exists (tb :: tbs). split; constructor; assumption. }
  destruct Htok as (tbs & H1 & H2).
  unfold json_parse. rewrite (lex_array_text _ _ H1).
  exact (parse_doc_array _ _ H2).
Qed.

Section Sink.

Variable W : Type.
Variable Write : W -> bytes -> W * (nat * option error).
Variable Event : Type.
Variable Marshal : Event -> result bytes.

(** X1: whatever the number of records, when the encoder is constructed,
    every record is encoded and the encoder is closed without an error, and
    every record is marshalled to a JSON text, the bytes put on the sink
    read as the JSON array of the values of the records, in the order they
    were encoded. *)
Theorem stream_reads_as_array ws events vs ws' :
  write_array Write Marshal ws events = (ws', None) ->
  Forall2 (fun event v =>
             exists b, Marshal event = Ok b /\ json_parse b = Some v)
    events vs ->
  exists out,
    written ws' = written ws ++ out /\ json_parse out = Some (JArr vs).
Proof.
  intros Hrun Hvs.
  destruct (EncoderSpec.write_array_ok _ _ _ _ _ _ _ Hrun) as (bs & Hbs & Hw).
  exists (array_text bs). split; [exact Hw|].
  apply json_parse_array_text.
  clear Hrun Hw. revert vs Hvs.
  induction Hbs as [|event b events bs Hb Hrest IH]; intros vs Hvs;
    inversion Hvs as [|? v ? vs' (b' & Hb' & Hv) Hvs']; subst.
  - constructor.
  - constructor; [|exact (IH _ Hvs')].
    rewrite Hb in Hb'. inversion Hb'; subst. exact Hv.
Qed.

(** A write that fails on a sink that takes slices whole or not at all
    leaves the stream as it was. *)
Lemma do_Write_refused ws p ws' err :
  all_or_nothing Write ->
  do_Write Write ws p = (ws', Some err) ->
  written ws' = written ws.
Proof.
  intros Ha. unfold do_Write.
  destruct (Write (sink ws) p) as [s' [n r]] eqn:E.
  intros H; inversion H; subst.
  rewrite (Ha _ _ _ _ _ E).
  unfold written; simpl. rewrite map_app, concat_app. simpl.
  now rewrite !app_nil_r.
Qed.

Lemma Encode_refused ws e event ws' e' err :
  all_or_nothing Write ->
  Encode Write Marshal ws e event = (ws', e', Some err) ->
  written ws' = written ws /\ e' = e.
Proof.
  intros Ha. unfold Encode.
  destruct (Marshal event) as [b|merr].
  - destruct (do_Write Write ws _) as [ws1 [werr|]] eqn:Hw;
      intros H; inversion H; subst.
    split; [exact (do_Write_refused _ _ _ _ Ha Hw) | reflexivity].
  - intros H; inversion H; subst. split; reflexivity.
Qed.

Lemma encode_skipping_written events : forall ws e ws' e' errs,
  all_or_nothing Write ->
  encode_skipping Write Marshal ws e events = (ws', e', errs) ->
  exists bs,
    Forall2 (fun event b => Marshal event = Ok b) (encoded events errs) bs
    /\ written ws' = written ws ++ items (wroteFirstItem e) bs.
Proof.
  induction events as [|event rest IH]; intros ws e ws' e' errs Ha H;
    cbn [encode_skipping] in H.
  - inversion H; subst. exists []. split; [constructor|].
    simpl. now rewrite app_nil_r.
  - destruct (Encode Write Marshal ws e event) as [[ws1 e1] err] eqn:E.
    destruct (encode_skipping Write Marshal ws1 e1 rest)
      as [[ws2 e2] errs'] eqn:Er.
    inversion H; subst.
    destruct (IH _ _ _ _ _ Ha Er) as (bs & Hbs & Hw).
    destruct err as [err|].
    + destruct (Encode_refused _ _ _ _ _ _ Ha E) as [Hsame ->].
      exists bs. split; [exact Hbs|]. now rewrite Hw, Hsame.
    + destruct (Encode_ok _ _ _ _ _ _ _ _ _ E) as (b & Hb & Hw1 & Hf).
      exists (b :: bs). split; [constructor; assumption|].
      rewrite Hw, Hw1, Hf. unfold separator. cbn [items].
      destruct (wroteFirstItem e); now rewrite <- !app_assoc.
Qed.

(** X2: on a sink that takes a slice whole or not at all, an [Encode] that
    fails, for a record that cannot be marshalled or a write that is
    refused, leaves no trace in the stream: when the caller goes on with the
    next records and closes the encoder, the stream is the array of exactly
    the records whose [Encode] returned no error, with one comma between two
    of them, and it reads as the JSON array of their values when they are
    JSON texts. *)
Theorem failed_encodes_leave_no_trace ws ws1 e events ws2 e2 errs ws3 :
  all_or_nothing Write ->
  NewMCPGVKEventEncoder Write ws = (ws1, Ok e) ->
  encode_skipping Write Marshal ws1 e events = (ws2, e2, errs) ->
  Close Write ws2 e2 = (ws3, None) ->
  exists bs,
    Forall2 (fun event b => Marshal event = Ok b) (encoded events errs) bs
    /\ written ws3 = written ws ++ array_text bs
    /\ forall vs,
        Forall2 (fun b v => json_parse b = Some v) bs vs ->
        json_parse (array_text bs) = Some (JArr vs).
Proof.
  intros Ha Hn He Hc.
  destruct (New_ok _ _ _ _ _ Hn) as [Hw1 Hf].
  destruct (encode_skipping_written _ _ _ _ _ _ Ha He) as (bs & Hbs & Hw2).
  apply Close_ok in Hc.
  exists bs. split; [exact Hbs|]. split.
  - rewrite Hc, Hw2, Hw1, Hf. unfold array_text. now rewrite <- !app_assoc.
  - intros vs. apply json_parse_array_text.
Qed.

End Sink.

(** A number, an object, a literal and an array, encoded on a buffer. *)
Lemma stream_reads_as_array_witness :
  exists out,
    written (fst (write_array Buffer_Write Marshal_opt fresh_buffer
                    [Some text_one; Some record_a1; Some text_true;
                     Some text_empty_array]))
    = written fresh_buffer ++ out
    /\ json_parse out
       = Some (JArr [JNum [x31]; JObj [([x61], JNum [x31])]; JBool true;
                     JArr []]).
Proof.
  apply (stream_reads_as_array Buffer Buffer_Write (option bytes) Marshal_opt
           fresh_buffer
           [Some text_one; Some record_a1; Some text_true;
            Some text_empty_array]).
  - reflexivity.
  - repeat constructor; eexists; split; reflexivity.
Defined.

Lemma Scripted_all_or_nothing : all_or_nothing Scripted_Write.
Proof.
  intros [buf script] p s' n err H. unfold Scripted_Write in H.
  destruct script as [|[] script]; inversion H; reflexivity.
Qed.

(** A first record that is refused once and then accepted, a record that
    cannot be marshalled, and a second record: the stream holds the two
    records once each. *)
Lemma failed_encodes_leave_no_trace_witness :
  let ws := fresh (([] : bytes), [true; false; true; true; true]) in
  let ws1 := fst (NewMCPGVKEventEncoder Scripted_Write ws) in
  let run :=
    encode_skipping Scripted_Write Marshal_opt ws1
      {| wroteFirstItem := false |}
      [Some record_a1; Some record_a1; None; Some record_b2] in
  let ws3 := fst (Close Scripted_Write (fst (fst run)) (snd (fst run))) in
  snd run
  = [Some "write refused"%string; None;
     Some "json: unsupported value"%string; None]
  /\ written ws3 = array_text [record_a1; record_b2].
Proof.
  intros ws ws1 run ws3. split; [reflexivity|].
  destruct (failed_encodes_leave_no_trace Scripted Scripted_Write
              (option bytes) Marshal_opt ws ws1 {| wroteFirstItem := false |}
              [Some record_a1; Some record_a1; None; Some record_b2]
              (fst (fst run)) (snd (fst run)) (snd run) ws3
              Scripted_all_or_nothing eq_refl eq_refl eq_refl)
    as (bs & Hbs & Hw & _).
  cbn in Hbs.
  inversion Hbs as [|? b1 ? bs1 Hb1 Hbs1]; subst.
  inversion Hbs1 as [|? b2 ? bs2 Hb2 Hbs2]; subst.
  inversion Hbs2; subst.
  inversion Hb1; inversion Hb2; subst. exact Hw.
Defined.

End EncoderMore.

(* ================================================================= *)
(** * The robot delete command: what it deletes and what it reports *)

Module RobotMore.

Import Robot.

Local Open Scope string_scope.

Section Run.

Variable API : Type.
Variable ListRobots : API -> N -> API * result (list Robot).
Variable Delete : API -> UUID -> API * option error.

(** The ID the loop ends on is the one it started with or the ID of a
    robot of the listing with the requested name. *)
Lemma scan_sound c account rs : forall id0 id,
  scan c account rs id0 = Ok (Some id) ->
  id0 = Some id
  \/ exists r, In r rs /\ Name r = cmd_Name c /\ ID r = id.
Proof.
  induction rs as [|r rs IH]; intros id0 id H; cbn [scan] in H.
  - inversion H; subst. now left.
  - destruct (String.eqb_spec (Name r) (cmd_Name c)) as [Hname|_].
    + destruct ((match id0 with Some _ => true | None => false end)
                && negb (Force c)); [discriminate|].
      destruct (IH _ _ H) as [Heq | (r' & Hin & Hn & Hid)].
      * inversion Heq; subst. right. exists r. simpl; auto.
      * right. exists r'. simpl; auto.
    + destruct (IH _ _ H) as [Heq | (r' & Hin & Hn & Hid)];
        [now left|].
      right. exists r'. simpl; auto.
Qed.

(** With at most one robot of the name in sight, the loop ends on it,
    with or without [Force]. *)
Lemma scan_single c account rs : forall id0,
  (length (matches (cmd_Name c) rs)
   + match id0 with Some _ => 1 | None => 0 end <= 1)%nat ->
  scan c account rs id0
  = Ok (match matches (cmd_Name c) rs with
        | [] => id0
        | r :: _ => Some (ID r)
        end).
Proof.
  induction rs as [|r rs IH]; intros id0 Hlen; [reflexivity|].
  cbn [scan matches filter] in Hlen |- *.
  fold (matches (cmd_Name c) rs) in Hlen |- *.
  destruct (String.eqb (Name r) (cmd_Name c)).
  - cbn [length] in Hlen. destruct id0 as [u|]; [lia|].
    cbn [andb]. rewrite IH by (simpl; lia).
    destruct (matches (cmd_Name c) rs); [reflexivity | simpl in Hlen; lia].
  - apply IH; assumption.
Qed.

(** X3: [Run] never deletes a robot of another name. Whatever the listing,
    the flag and the answers of the API, [Run] sends no delete request or
    exactly one, and that one is for the ID of a robot that is in the
    listing it received and carries the requested name. *)
Theorem deletes_only_the_named_robot c account w :
  deletes (fst (Run API ListRobots Delete c account w)) = deletes w
  \/ exists a1 rs r,
      ListRobots (api w) (acc_ID account) = (a1, Ok rs)
      /\ In r rs /\ Name r = cmd_Name c
      /\ deletes (fst (Run API ListRobots Delete c account w))
         = (deletes w ++ [ID r])%list.
Proof.
  unfold Run.
  destruct (ListRobots (api w) (acc_ID account)) as [a1 [rs|err]] eqn:Hl;
    [|now left].
  destruct (length rs =? 0)%nat; [now left|].
  destruct (scan c account rs None) as [[id|]|err] eqn:Hs;
    [|now left|now left].
  destruct (scan_sound _ _ _ _ _ Hs) as [Hd | (r & Hin & Hn & Hid)];
    [discriminate|].
  right. exists a1, rs, r. subst id.
  destruct (Delete a1 (ID r)) as [a2 [err|]]; simpl; auto.
Qed.

(** X4: when exactly one robot of the listing carries the requested name,
    [Run] sends one delete request, for that robot, whether [Force] is set
    or not, and returns what the request returned. *)
Theorem deletes_the_single_match c account w a1 rs r :
  ListRobots (api w) (acc_ID account) = (a1, Ok rs) ->
  matches (cmd_Name c) rs = [r] ->
  deletes (fst (Run API ListRobots Delete c account w))
  = (deletes w ++ [ID r])%list
  /\ api (fst (Run API ListRobots Delete c account w))
     = fst (Delete a1 (ID r))
  /\ snd (Run API ListRobots Delete c account w) = snd (Delete a1 (ID r)).
Proof.
  intros Hl Hm. unfold Run. rewrite Hl.
  assert (Hne : (length rs =? 0)%nat = false).
  { destruct rs; [discriminate | reflexivity]. }
  rewrite Hne, scan_single by (rewrite Hm; simpl; lia).
  rewrite Hm.
  destruct (Delete a1 (ID r)) as [a2 [err|]]; simpl; auto.
Qed.

(** X5: when the listing fails, [Run] returns the error of the listing;
    when no robot of the listing carries the requested name, an empty
    listing included, [Run] returns the error "could not find robot NAME in
    ACCOUNT". In both cases no delete request is sent and nothing is
    printed. *)
Theorem nothing_to_delete c account w a1 listed :
  ListRobots (api w) (acc_ID account) = (a1, listed) ->
  match listed with
  | Err err => True
  | Ok rs => matches (cmd_Name c) rs = []
  end ->
  Run API ListRobots Delete c account w
  = ({| api := a1; deletes := deletes w; printed := printed w |},
     Some match listed with
          | Err err => err
          | Ok _ => "could not find robot " ++ cmd_Name c ++ " in "
                    ++ acc_Name account
          end).
Proof.
  intros Hl Hm. unfold Run. rewrite Hl.
  destruct listed as [rs|err]; [|reflexivity].
  destruct (length rs =? 0)%nat; [reflexivity|].
  rewrite scan_single by (rewrite Hm; simpl; lia).
  rewrite Hm. reflexivity.
Qed.

(** X6: [Run] reports a deletion exactly when one happened. When [Run]
    returns no error, it has sent one delete request, the request was
    answered without error, and the only line printed is "ACCOUNT/NAME
    deleted"; when [Run] returns an error, nothing is printed. *)
Theorem reports_what_was_deleted c account w :
  (snd (Run API ListRobots Delete c account w) = None ->
   exists a1 id,
     fst (ListRobots (api w) (acc_ID account)) = a1
     /\ snd (Delete a1 id) = None
     /\ deletes (fst (Run API ListRobots Delete c account w))
        = (deletes w ++ [id])%list
     /\ printed (fst (Run API ListRobots Delete c account w))
        = (printed w
           ++ [(acc_Name account ++ "/" ++ cmd_Name c
                ++ " deleted")%string])%list)
  /\ (forall err,
        snd (Run API ListRobots Delete c account w) = Some err ->
        printed (fst (Run API ListRobots Delete c account w)) = printed w).
Proof.
  unfold Run.
  destruct (ListRobots (api w) (acc_ID account)) as [a1 [rs|lerr]];
    [|split; [discriminate | reflexivity]].
  destruct (length rs =? 0)%nat; [split; [discriminate | reflexivity]|].
  destruct (scan c account rs None) as [[id|]|serr];
    try (split; [discriminate | reflexivity]).
  destruct (Delete a1 id) as [a2 [derr|]] eqn:Hd; simpl.
  - split; [discriminate | reflexivity].
  - split; [|discriminate].
    intros _. exists a1, id. rewrite Hd. auto.
Qed.

End Run.

(** The robot named [deploy] is the only one of its name in the listing of
    three: it is deleted without [Force]. *)
Lemma deletes_the_single_match_witness :
  let w := {| api := three_robots; deletes := []; printed := [] |} in
  let c := {| cmd_Name := "deploy"; Force := false |} in
  let account := {| acc_ID := 7%N; acc_Name := "acme" |} in
  deletes (fst (Run Directory Directory_ListRobots Directory_Delete
                  c account w)) = [2%N]
  /\ api (fst (Run Directory Directory_ListRobots Directory_Delete
                 c account w))
     = [ {| ID := 1%N; Name := "ci" |}; {| ID := 3%N; Name := "ci" |} ]
  /\ snd (Run Directory Directory_ListRobots Directory_Delete c account w)
     = None.
Proof.
  intros w c account.
  exact (deletes_the_single_match Directory Directory_ListRobots
           Directory_Delete c account w three_robots three_robots
           {| ID := 2%N; Name := "deploy" |} eq_refl eq_refl).
Defined.

(** No robot of the listing of three is named [nightly]. *)
Lemma nothing_to_delete_witness :
  Run Directory Directory_ListRobots Directory_Delete
    {| cmd_Name := "nightly"; Force := true |}
    {| acc_ID := 7%N; acc_Name := "acme" |}
    {| api := three_robots; deletes := []; printed := [] |}
  = ({| api := three_robots; deletes := []; printed := [] |},
     Some "could not find robot nightly in acme").
Proof.
  exact (nothing_to_delete Directory Directory_ListRobots Directory_Delete
           {| cmd_Name := "nightly"; Force := true |}
           {| acc_ID := 7%N; acc_Name := "acme" |}
           {| api := three_robots; deletes := []; printed := [] |}
           three_robots (Ok three_robots) eq_refl eq_refl).
Defined.

(** The deletion of the robot named [deploy] is reported. *)
Lemma reports_what_was_deleted_witness :
  printed (fst (Run Directory Directory_ListRobots Directory_Delete
                  {| cmd_Name := "deploy"; Force := false |}
                  {| acc_ID := 7%N; acc_Name := "acme" |}
                  {| api := three_robots; deletes := []; printed := [] |}))
  = ["acme/deploy deleted"].
Proof.
  destruct (proj1 (reports_what_was_deleted Directory Directory_ListRobots
                     Directory_Delete
                     {| cmd_Name := "deploy"; Force := false |}
                     {| acc_ID := 7%N; acc_Name := "acme" |}
                     {| api := three_robots; deletes := []; printed := [] |})
              eq_refl)
    as (a1 & id & _ & _ & _ & Hp).
  exact Hp.
Defined.

End RobotMore.

(* ================================================================= *)
(** * The robot token delete command *)

Module TokenSpec.

Import Robot Token.

Local Open Scope string_scope.
Local Open Scope list_scope.

Section Run.

Variable Attr : Type.
Variable Sprint : option Attr -> string.
Variable errFindRobot : string -> string -> error.
Variable errMultipleRobot : string -> string -> error.
Variable errFindToken : string -> string -> string -> error.
Variable errMultipleToken : string -> string -> string -> error.
Variable API : Type.
Variable ListRobots : API -> N -> API * result (list Robot).
Variable ListTokens : API -> UUID -> API * result (list (Token Attr)).
Variable Delete : API -> UUID -> API * option error.

(** A second robot of the name ends the loop with the error. *)
Lemma scan_robots_multiple c account rs : forall rid,
  (2 <= length (matches (RobotName c) rs)
        + match rid with Some _ => 1 | None => 0 end)%nat ->
  scan_robots errMultipleRobot c account rs rid
  = Err (errMultipleRobot (RobotName c) (acc_Name account)).
Proof.
  induction rs as [|r rs IH]; intros rid Hlen.
  - simpl in Hlen. destruct rid; lia.
  - cbn [scan_robots matches filter] in Hlen |- *.
    fold (matches (RobotName c) rs) in Hlen.
    destruct (String.eqb (Name r) (RobotName c)).
    + destruct rid as [u|]; [reflexivity|].
      apply IH. simpl in Hlen |- *. lia.
    + apply IH; assumption.
Qed.

(** The loop over the robots ends on an ID only when one robot carries the
    name, and then on the ID of that robot. *)
Lemma scan_robots_found c account rs : forall rid0 rid,
  scan_robots errMultipleRobot c account rs rid0 = Ok (Some rid) ->
  (rid0 = Some rid /\ matches (RobotName c) rs = [])
  \/ (rid0 = None
      /\ exists r, matches (RobotName c) rs = [r] /\ ID r = rid).
Proof.
  induction rs as [|r rs IH]; intros rid0 rid H;
    cbn [scan_robots matches filter] in H |- *.
  - inversion H; subst. now left.
  - fold (matches (RobotName c) rs).
    destruct (String.eqb (Name r) (RobotName c)).
    + destruct rid0 as [u|]; [discriminate|].
      right. split; [reflexivity|].
      destruct (IH _ _ H) as [[Heq Hm] | [Hn _]]; [|discriminate].
      inversion Heq; subst. exists r. now rewrite Hm.
    + exact (IH _ _ H).
Qed.

Lemma scan_robots_single c account rs r :
  matches (RobotName c) rs = [r] ->
  scan_robots errMultipleRobot c account rs None = Ok (Some (ID r)).
Proof.
  assert (Hnone : forall rs rid,
             matches (RobotName c) rs = [] ->
             scan_robots errMultipleRobot c account rs rid = Ok rid).
  { clear rs. induction rs as [|r' rs IH]; intros rid Hm; [reflexivity|].
    cbn [scan_robots matches filter] in Hm |- *.
    destruct (String.eqb (Name r') (RobotName c)); [discriminate|].
    now apply IH. }
  induction rs as [|r' rs IH]; intros Hm; [discriminate|].
  cbn [scan_robots matches filter] in Hm |- *.
  fold (matches (RobotName c) rs) in Hm.
  destruct (String.eqb (Name r') (RobotName c)).
  - inversion Hm; subst. now apply Hnone.
  - now apply IH.
Qed.

(** The loop over the tokens, with and without [Force]. *)
Lemma scan_tokens_force c account ts : forall tid d,
  Token.Force c = true ->
  scan_tokens Sprint errMultipleToken c account ts tid
  = Ok (match matching_tokens Sprint c ts with
        | [] => tid
        | _ :: _ => Some (tok_ID (last (matching_tokens Sprint c ts) d))
        end).
Proof.
  induction ts as [|t ts IH]; intros tid d Hf; [reflexivity|].
  cbn [scan_tokens matching_tokens filter].
  fold (matching_tokens Sprint c ts).
  destruct (String.eqb (Sprint (AttributeSet t "name")) (TokenName c)).
  - rewrite Hf, andb_false_r. rewrite (IH _ d Hf).
    destruct (matching_tokens Sprint c ts); reflexivity.
  - apply IH; assumption.
Qed.

Lemma scan_tokens_no_force c account ts : forall tid,
  Token.Force c = false ->
  (2 <= length (matching_tokens Sprint c ts)
        + match tid with Some _ => 1 | None => 0 end)%nat ->
  scan_tokens Sprint errMultipleToken c account ts tid
  = Err (errMultipleToken (TokenName c) (RobotName c) (acc_Name account)).
Proof.
  induction ts as [|t ts IH]; intros tid Hf Hlen.
  - simpl in Hlen. destruct tid; lia.
  - cbn [scan_tokens matching_tokens filter] in Hlen |- *.
    fold (matching_tokens Sprint c ts) in Hlen.
    destruct (String.eqb (Sprint (AttributeSet t "name")) (TokenName c)).
    + rewrite Hf. destruct tid as [u|]; [reflexivity|].
      simpl. apply IH; [assumption|]. simpl in Hlen. lia.
    + apply IH; assumption.
Qed.

Lemma scan_tokens_sound c account ts : forall tid0 tid,
  scan_tokens Sprint errMultipleToken c account ts tid0 = Ok (Some tid) ->
  tid0 = Some tid
  \/ exists t,
      In t ts /\ Sprint (AttributeSet t "name") = TokenName c
      /\ tok_ID t = tid.
Proof.
  induction ts as [|t ts IH]; intros tid0 tid H; cbn [scan_tokens] in H.
  - inversion H; subst. now left.
  - destruct (String.eqb_spec (Sprint (AttributeSet t "name")) (TokenName c))
      as [Hname|_].
    + destruct ((match tid0 with Some _ => true | None => false end)
                && negb (Token.Force c)); [discriminate|].
      destruct (IH _ _ H) as [Heq | (t' & Hin & Hn & Hid)].
      * inversion Heq; subst. right. exists t. simpl; auto.
      * right. exists t'. simpl; auto.
    + destruct (IH _ _ H) as [Heq | (t' & Hin & Hn & Hid)]; [now left|].
      right. exists t'. simpl; auto.
Qed.

(** X7: [Force] does not cover robots. When several robots of the listing
    carry the robot name, [Run] returns the ambiguity error for robots,
    with [Force] as without it, after the one request that lists the
    robots: no tokens are listed and none is deleted. *)
Theorem force_does_not_cover_robots c account w a1 rs :
  ListRobots (Token.api w) (acc_ID account) = (a1, Ok rs) ->
  (1 < length (matches (RobotName c) rs))%nat ->
  Run Sprint errFindRobot errMultipleRobot errFindToken errMultipleToken
    ListRobots ListTokens Delete c account w
  = ({| Token.api := a1;
        calls := calls w ++ [ListRobotsCall (acc_ID account)];
        Token.printed := Token.printed w |},
     Some (errMultipleRobot (RobotName c) (acc_Name account))).
Proof.
  intros Hl Hlen. unfold Run. rewrite Hl.
  assert (Hne : (length rs =? 0)%nat = false).
  { destruct rs; [simpl in Hlen; lia | reflexivity]. }
  rewrite Hne, scan_robots_multiple by lia. reflexivity.
Qed.

(** X8: when one robot carries the robot name and several of its tokens
    carry the token name, [Run] with [Force] sends one delete request, for
    the token that comes last among the matches in the order of the
    listing, and returns what that request returned; without [Force] it
    returns the ambiguity error for tokens and sends no delete request. *)
Theorem force_deletes_last_token c account w a1 rs r a2 ts :
  ListRobots (Token.api w) (acc_ID account) = (a1, Ok rs) ->
  matches (RobotName c) rs = [r] ->
  ListTokens a1 (ID r) = (a2, Ok ts) ->
  (1 < length (matching_tokens Sprint c ts))%nat ->
  let run :=
    Run Sprint errFindRobot errMultipleRobot errFindToken errMultipleToken
      ListRobots ListTokens Delete c account w in
  (Token.Force c = true ->
   forall d,
     let tid := tok_ID (last (matching_tokens Sprint c ts) d) in
     calls (fst run)
     = calls w ++ [ListRobotsCall (acc_ID account); ListTokensCall (ID r);
                   DeleteCall tid]
     /\ snd run = snd (Delete a2 tid))
  /\ (Token.Force c = false ->
      run
      = ({| Token.api := a2;
            calls := calls w ++ [ListRobotsCall (acc_ID account);
                                 ListTokensCall (ID r)];
            Token.printed := Token.printed w |},
         Some (errMultipleToken (TokenName c) (RobotName c)
                 (acc_Name account)))).
Proof.
  intros Hl Hm Ht Hlen run. unfold run, Run. rewrite Hl.
  assert (Hne : (length rs =? 0)%nat = false).
  { destruct rs; [discriminate | reflexivity]. }
  assert (Hnt : (length ts =? 0)%nat = false).
  { destruct ts; [simpl in Hlen; lia | reflexivity]. }
  rewrite Hne, (scan_robots_single _ _ _ _ Hm), Ht, Hnt.
  split.
  - intros Hf d. cbv zeta. rewrite (scan_tokens_force _ _ _ _ d Hf).
    destruct (matching_tokens Sprint c ts) as [|t0 ms] eqn:Em;
      [simpl in Hlen; lia|].
    destruct (Delete a2 (tok_ID (last (t0 :: ms) d))) as [a3 [err|]];
      cbn [fst snd calls]; rewrite <- !app_assoc; auto.
  - intros Hf. rewrite scan_tokens_no_force by (assumption || lia).
    cbn [calls]. now rewrite <- app_assoc.
Qed.

(** X9: [Run] never deletes a token of another name or of another robot.
    Whatever the listings, the flag and the answers of the API, [Run]
    sends no delete request, or exactly one, after the two listings: for a
    token that is in the listing of the tokens of the one robot of the
    listing that carries the robot name, and whose name attribute prints as
    the token name. *)
Theorem deletes_only_the_named_token c account w :
  let run :=
    Run Sprint errFindRobot errMultipleRobot errFindToken errMultipleToken
      ListRobots ListTokens Delete c account w in
  (exists rest,
      calls (fst run)
      = (calls w ++ ListRobotsCall (acc_ID account) :: rest)%list
      /\ forall tid, ~ In (DeleteCall tid) rest)
  \/ exists a1 rs r a2 ts t,
      ListRobots (Token.api w) (acc_ID account) = (a1, Ok rs)
      /\ matches (RobotName c) rs = [r]
      /\ ListTokens a1 (ID r) = (a2, Ok ts)
      /\ In t ts
      /\ Sprint (AttributeSet t "name") = TokenName c
      /\ calls (fst run)
         = (calls w ++ [ListRobotsCall (acc_ID account);
                        ListTokensCall (ID r); DeleteCall (tok_ID t)])%list.
Proof.
  intros run. unfold run, Run.
  assert (Hnone : forall tid, ~ In (DeleteCall tid) []) by (intros tid []).
  assert (Hone : forall rid tid, ~ In (DeleteCall tid) [ListTokensCall rid]).
  { intros rid tid [H|[]]. discriminate. }
  destruct (ListRobots (Token.api w) (acc_ID account)) as [a1 [rs|err]] eqn:Hl;
    [|left; exists []; auto].
  destruct (length rs =? 0)%nat; [left; exists []; auto|].
  destruct (scan_robots errMultipleRobot c account rs None)
    as [[rid|]|err] eqn:Hs; [|left; exists []; auto|left; exists []; auto].
  destruct (scan_robots_found _ _ _ _ _ Hs) as [[Hd _] | (_ & r & Hm & Hid)];
    [discriminate|]. subst rid.
  destruct (ListTokens a1 (ID r)) as [a2 [ts|err]] eqn:Ht;
    [|left; exists [ListTokensCall (ID r)]; cbn [fst calls];
      rewrite <- app_assoc; auto].
  destruct (length ts =? 0)%nat;
    [left; exists [ListTokensCall (ID r)]; cbn [fst calls];
     rewrite <- app_assoc; auto|].
  destruct (scan_tokens Sprint errMultipleToken c account ts None)
    as [[tid|]|err] eqn:Hst;
    try (left; exists [ListTokensCall (ID r)]; cbn [fst calls];
         rewrite <- app_assoc; now auto).
  destruct (scan_tokens_sound _ _ _ _ _ Hst) as [Hd | (t & Hin & Hn & Hid)];
    [discriminate|]. subst tid.
  right. exists a1, rs, r, a2, ts, t.
  repeat (split; [assumption || reflexivity|]).
  destruct (Delete a2 (tok_ID t)) as [a3 [err|]]; cbn [fst calls];
    now rewrite <- !app_assoc.
Qed.

End Run.

(** Two robots are named [ci]: with [Force] set the command still stops at
    the robots. *)
Lemma force_does_not_cover_robots_witness :
  Run Sprint_string Robot.errFindRobot Robot.errMultipleRobot
    sample_errFindToken sample_errMultipleToken
    Store_ListRobots Store_ListTokens Store_Delete
    {| RobotName := "ci"; TokenName := "deploy"; Token.Force := true |}
    {| acc_ID := 7%N; acc_Name := "acme" |}
    {| Token.api := two_robots_one_name; calls := [];
       Token.printed := [] |}
  = ({| Token.api := two_robots_one_name; calls := [ListRobotsCall 7%N];
        Token.printed := [] |},
     Some "found multiple robots with name ci in acme").
Proof.
  exact (force_does_not_cover_robots string Sprint_string Robot.errFindRobot
           Robot.errMultipleRobot _ _ Store Store_ListRobots Store_ListTokens
           Store_Delete
           {| RobotName := "ci"; TokenName := "deploy";
              Token.Force := true |}
           {| acc_ID := 7%N; acc_Name := "acme" |}
           {| Token.api := two_robots_one_name; calls := [];
              Token.printed := [] |}
           two_robots_one_name three_robots eq_refl (le_n 2)).
Defined.

(** Two of the three tokens of the robot [ci] are named [deploy]: with
    [Force] the one listed last, with ID 13, is the one deleted. *)
Lemma force_deletes_last_token_witness :
  let run :=
    Run Sprint_string Robot.errFindRobot Robot.errMultipleRobot
      sample_errFindToken sample_errMultipleToken
      Store_ListRobots Store_ListTokens Store_Delete
      {| RobotName := "ci"; TokenName := "deploy"; Token.Force := true |}
      {| acc_ID := 7%N; acc_Name := "acme" |}
      {| Token.api := one_robot_three_tokens; calls := [];
         Token.printed := [] |} in
  calls (fst run)
  = [ListRobotsCall 7%N; ListTokensCall 1%N; DeleteCall 13%N]
  /\ snd run = None.
Proof.
  intros run.
  exact (proj1 (force_deletes_last_token string Sprint_string
                  Robot.errFindRobot Robot.errMultipleRobot _ _ Store
                  Store_ListRobots Store_ListTokens Store_Delete
                  {| RobotName := "ci"; TokenName := "deploy";
                     Token.Force := true |}
                  {| acc_ID := 7%N; acc_Name := "acme" |}
                  {| Token.api := one_robot_three_tokens; calls := [];
                     Token.printed := [] |}
                  one_robot_three_tokens (fst one_robot_three_tokens)
                  {| ID := 1%N; Name := "ci" |}
                  one_robot_three_tokens (snd one_robot_three_tokens 1%N)
                  eq_refl eq_refl eq_refl (le_n 2))
           eq_refl
           {| tok_ID := 0%N; AttributeSet := named "" |}).
Defined.

(** The run on the robot with three tokens falls under the second case:
    its only delete request is for a token named [deploy] of the robot
    named [ci]. *)
Lemma deletes_only_the_named_token_witness :
  let run :=
    Run Sprint_string Robot.errFindRobot Robot.errMultipleRobot
      sample_errFindToken sample_errMultipleToken
      Store_ListRobots Store_ListTokens Store_Delete
      {| RobotName := "ci"; TokenName := "deploy"; Token.Force := true |}
      {| acc_ID := 7%N; acc_Name := "acme" |}
      {| Token.api := one_robot_three_tokens; calls := [];
         Token.printed := [] |} in
  (exists rest,
      calls (fst run) = [] ++ ListRobotsCall 7%N :: rest
      /\ forall tid, ~ In (DeleteCall tid) rest)
  \/ exists a1 rs r a2 ts t,
      Store_ListRobots one_robot_three_tokens 7%N = (a1, Ok rs)
      /\ matches "ci" rs = [r]
      /\ Store_ListTokens a1 (ID r) = (a2, Ok ts)
      /\ In t ts
      /\ Sprint_string (AttributeSet t "name") = "deploy"
      /\ calls (fst run)
         = [] ++ [ListRobotsCall 7%N; ListTokensCall (ID r);
                  DeleteCall (tok_ID t)].
Proof.
  exact (deletes_only_the_named_token string Sprint_string Robot.errFindRobot
           Robot.errMultipleRobot sample_errFindToken sample_errMultipleToken
           Store Store_ListRobots Store_ListTokens Store_Delete
           {| RobotName := "ci"; TokenName := "deploy";
              Token.Force := true |}
           {| acc_ID := 7%N; acc_Name := "acme" |}
           {| Token.api := one_robot_three_tokens; calls := [];
              Token.printed := [] |}).
Defined.

End TokenSpec.

(* ================================================================= *)
(** * The number and the length of the steps of the iterator *)

Module UsageMore.

Import GoTime Usage UsageFacts.

Local Open Scope Z_scope.

Lemma drain_exhausted f i : More i = false -> drain f i = (i, []).
Proof. intros H. destruct f; simpl; [reflexivity | now rewrite H]. Qed.

(** The loop takes as many steps as windows are needed to cover the range,
    and every step but the last is a whole window. *)
Lemma drain_count f : forall i,
  iterator_ok i -> (rounds i <= f)%nat ->
  Z.of_nat (length (snd (drain f i)))
  = (EndTime i - Cursor i + Window i - 1) / Window i
  /\ Forall (fun st => step_end st - step_start st = Window i)
       (removelast (snd (drain f i))).
Proof.
  induction f as [|f IH]; intros i Hok Hr.
  - assert (Hm : More i = false) by (apply rounds_zero; [assumption | lia]).
    simpl. split; [|constructor].
    unfold More, Time_Before in Hm. apply Z.ltb_ge in Hm.
    destruct Hok as [_ _ Hle Hw _]. pose proof Hour_pos.
    replace (EndTime i - Cursor i + Window i - 1) with (Window i - 1) by lia.
    rewrite Z.div_small; lia.
  - cbn [drain]. destruct (More i) eqn:Hm.
    + destruct (Next_step i Hok Hm) as (Hn & Hadv & Hend).
      cbv zeta in Hn. rewrite Hn.
      set (stepEnd := Z.min (Cursor i + Window i) (EndTime i)) in *.
      set (i' := {| Account := Account i; Cursor := stepEnd;
                    EndTime := EndTime i; Window := Window i |}).
      assert (Hok' : iterator_ok i').
      { destruct Hok. constructor; simpl; auto. unfold stepEnd. lia. }
      pose proof Hour_pos as Hpos.
      destruct Hok as [Hc He Hle Hw Hwh].
      unfold More, Time_Before in Hm. apply Z.ltb_lt in Hm.
      destruct (Z_le_gt_dec (Cursor i + Window i) (EndTime i)) as [Hfit|Hcut].
      * (* a whole window *)
        assert (Hs : stepEnd = Cursor i + Window i) by (unfold stepEnd; lia).
        assert (Hr' : (rounds i' <= f)%nat).
        { unfold rounds in Hr |- *. simpl. rewrite Hs.
          assert ((EndTime i - (Cursor i + Window i)) / Hour
                  <= (EndTime i - Cursor i + (-1) * Hour) / Hour)
            by (apply Z.div_le_mono; lia).
          rewrite Z.div_add in H by lia.
          assert (0 <= (EndTime i - (Cursor i + Window i)) / Hour)
            by (apply Z.div_pos; lia).
          lia. }
        destruct (IH i' Hok' Hr') as [Hcount Hfull].
        destruct (drain f i') as [final sts] eqn:Hd.
        cbn [snd length] in *. simpl in Hcount, Hfull. split.
        -- rewrite Nat2Z.inj_succ, Hcount, Hs.
           replace (EndTime i - Cursor i + Window i - 1)
             with (EndTime i - (Cursor i + Window i) + Window i - 1
                   + 1 * Window i) by lia.
           rewrite Z.div_add by lia. lia.
        -- destruct sts as [|st sts']; [constructor|].
           change (removelast (?a :: st :: sts'))
             with (a :: removelast (st :: sts')).
           constructor; [simpl; lia | exact Hfull].
      * (* the last, shorter step *)
        assert (Hs : stepEnd = EndTime i) by (unfold stepEnd; lia).
        assert (Hm' : More i' = false).
        { unfold More, Time_Before. simpl. rewrite Hs. apply Z.ltb_irrefl. }
        rewrite (drain_exhausted f i' Hm'). cbn [snd length removelast].
        split; [|constructor].
        change (Z.of_nat 1) with 1.
        apply (Z.div_unique _ _ 1 (EndTime i - Cursor i - 1)); lia.
    + simpl. split; [|constructor].
      unfold More, Time_Before in Hm. apply Z.ltb_ge in Hm.
      destruct Hok as [_ _ Hle Hw _]. pose proof Hour_pos.
      replace (EndTime i - Cursor i + Window i - 1) with (Window i - 1) by lia.
      rewrite Z.div_small; lia.
Qed.

(** X10: for a window of at least one hour and a start not after the end,
    the loop over [More] and [Next] takes as many steps as windows are
    needed to cover the truncated range, the range divided by the truncated
    window and rounded up, and every step but the last spans a whole
    window; a window that is not shorter than the range gives at most one
    step. *)
Theorem iterator_step_count account startTime endTime window :
  Hour <= window -> startTime <= endTime ->
  exists i,
    NewUsageQueryIterator account startTime endTime window = Ok i
    /\ Z.of_nat (length (snd (iterate i)))
       = (Time_Truncate endTime Hour - Time_Truncate startTime Hour
          + Duration_Truncate window Hour - 1)
         / Duration_Truncate window Hour
    /\ Forall (fun st =>
                 step_end st - step_start st = Duration_Truncate window Hour)
         (removelast (snd (iterate i)))
    /\ (Time_Truncate endTime Hour - Time_Truncate startTime Hour
        <= Duration_Truncate window Hour ->
        (length (snd (iterate i)) <= 1)%nat).
Proof.
  intros Hw Hle.
  pose proof (Time_Truncate_mono _ _ Hle) as Hle'.
  pose proof (NewUsageQueryIterator_ok account _ _ _ Hw Hle') as Hnew.
  set (i := {| Account := account;
               Cursor := Time_Truncate startTime Hour;
               EndTime := Time_Truncate endTime Hour;
               Window := Duration_Truncate window Hour |}) in *.
  pose proof (NewUsageQueryIterator_iterator_ok _ _ _ _ _ Hnew) as Hok.
  destruct (drain_count (rounds i) i Hok (le_n _)) as [Hcount Hfull].
  exists i. split; [exact Hnew|]. split; [exact Hcount|].
  split; [exact Hfull|].
  intros Hbig. unfold iterate. simpl in Hcount.
  destruct (Duration_Truncate_Hour _ Hw) as [_ Hge]. pose proof Hour_pos.
  assert ((Time_Truncate endTime Hour - Time_Truncate startTime Hour
           + Duration_Truncate window Hour - 1)
          / Duration_Truncate window Hour < 2)
    by (apply Z.div_lt_upper_bound; lia).
  lia.
Qed.

(** The range of three hours and the window of two hours of the tests: two
    steps, the first of two hours. *)
Lemma iterator_step_count_witness :
  exists i,
    NewUsageQueryIterator "test-account"%string (Date 2006 5 4 3 0 0 0)
      (Date 2006 5 4 6 0 0 0) (2 * Hour) = Ok i
    /\ Z.of_nat (length (snd (iterate i)))
       = (Time_Truncate (Date 2006 5 4 6 0 0 0) Hour
          - Time_Truncate (Date 2006 5 4 3 0 0 0) Hour
          + Duration_Truncate (2 * Hour) Hour - 1)
         / Duration_Truncate (2 * Hour) Hour
    /\ Forall (fun st =>
                 step_end st - step_start st
                 = Duration_Truncate (2 * Hour) Hour)
         (removelast (snd (iterate i)))
    /\ (Time_Truncate (Date 2006 5 4 6 0 0 0) Hour
        - Time_Truncate (Date 2006 5 4 3 0 0 0) Hour
        <= Duration_Truncate (2 * Hour) Hour ->
        (length (snd (iterate i)) <= 1)%nat).
Proof.
  apply iterator_step_count; vm_compute; discriminate.
Defined.

End UsageMore.
